(** * mini-git: a shallow embedding of [src/main.rs]

    The object encoders ([BlobObject::new], [TreeObject::new],
    [CommitObject::new]), the object store and staging index of
    [Repository] ([write_object], [add_to_index], [read_index],
    [read_object], [commit_tree], [write_tree], [get_object_path],
    [init]), the command handlers ([hash-object], [cat-file],
    [ls-files], [write-tree], [commit-tree]) with their standard output,
    and [main]'s dispatch.

    Modelling choices:
    - bytes are [list byte]; a Rust [&str] / [String] is its UTF-8 bytes;
    - SHA-1 ([hash_content]) and zlib ([compress_content],
      [decompress_content]) are parameters of the development: every
      theorem holds for any such functions;
    - the file system under [.mini-git] is a record: whether [objects/] is
      a directory, the state of the [index] file, and the object files,
      keyed by (shard directory, leaf file) name;
    - any other path (one [Path::join] takes out of [objects/], or one
      with more components) is looked up in a [Host] parameter: the
      current directory and what lies at each path outside the store;
    - [init]'s directory and file creations are given by an [InitEnv]:
      which of them already exist and which calls succeed;
    - the index file holds the decoded [IndexFile] (bincode is taken to
      round-trip); an index file that does not decode is [IndexUndecodable];
    - [PathBuf] is its bytes; its [==] and [Ord] go through
      [Path::components], as in the Rust standard library. *)

From Stdlib Require Import List NArith ZArith Bool Lia.
From Stdlib Require Import Sorting.Sorted Sorting.Permutation.
From Stdlib Require Import Strings.Byte Strings.String.
From Stdlib Require Import Classes.RelationClasses.
Import ListNotations.
Open Scope N_scope.

(** ** Bytes *)

Definition bytes (s : string) : list byte := list_byte_of_string s.

Definition byte_eqb (a b : byte) : bool := Byte.eqb a b.

Fixpoint bytes_eqb (xs ys : list byte) : bool :=
  match xs, ys with
  | [], [] => true
  | x :: xs', y :: ys' => byte_eqb x y && bytes_eqb xs' ys'
  | _, _ => false
  end.

(** [Iterator::position] *)
Fixpoint position {A} (f : A -> bool) (l : list A) : option nat :=
  match l with
  | [] => None
  | x :: l' => if f x then Some O else option_map S (position f l')
  end.

(** [v[i] = x] on a [Vec]; callers only use indices in range. *)
Fixpoint replace_at {A} (i : nat) (x : A) (l : list A) : list A :=
  match l, i with
  | [], _ => []
  | _ :: l', O => x :: l'
  | y :: l', S i' => y :: replace_at i' x l'
  end.

(** Decimal rendering, as [format!("{}", n)] for an unsigned integer. *)
Definition digit_byte (d : N) : byte :=
  match Byte.of_N (48 + d) with Some b => b | None => x30 end.

Fixpoint dec_aux (fuel : nat) (n : N) (acc : list byte) : list byte :=
  match fuel with
  | O => acc
  | S f =>
      let acc' := digit_byte (n mod 10) :: acc in
      if n <? 10 then acc' else dec_aux f (n / 10) acc'
  end.

Definition dec_N (n : N) : list byte := dec_aux (S (N.size_nat n)) n [].

Definition dec_nat (n : nat) : list byte := dec_N (N.of_nat n).

(** [format!("{}", i)] for a signed [i64]. *)
Definition dec_Z (z : Z) : list byte :=
  match z with
  | Zneg p => x2d :: dec_N (Npos p)
  | _ => dec_N (Z.to_N z)
  end.

(** [format!("{:02}", n)] *)
Definition dec_pad2 (n : N) : list byte :=
  let d := dec_N n in if (N.of_nat (List.length d) <? 2) then x30 :: d else d.

(** [hex::encode]: two lowercase hex digits per byte. *)
Definition hex_digit (d : N) : byte :=
  match Byte.of_N (if d <? 10 then 48 + d else 87 + d) with
  | Some b => b | None => x30 end.

Definition hex_encode (bs : list byte) : list byte :=
  flat_map (fun b => [hex_digit (Byte.to_N b / 16); hex_digit (Byte.to_N b mod 16)]) bs.

(** [char::is_ascii_hexdigit] *)
Definition is_ascii_hexdigit (b : byte) : bool :=
  let n := Byte.to_N b in
  ((48 <=? n) && (n <=? 57)) || ((65 <=? n) && (n <=? 70)) || ((97 <=? n) && (n <=? 102)).

(** [str::is_char_boundary i] for a [&str] (valid UTF-8): the byte at [i]
    is not a continuation byte [0b10xxxxxx]. *)
Definition is_char_boundary (s : list byte) (i : nat) : bool :=
  match nth_error s i with
  | None => Nat.eqb i (List.length s)
  | Some b => negb ((128 <=? Byte.to_N b) && (Byte.to_N b <=? 191))
  end.

(** [std::str::from_utf8] succeeds exactly on well-formed UTF-8. *)
Definition in_range (lo hi : N) (b : byte) : bool :=
  (lo <=? Byte.to_N b) && (Byte.to_N b <=? hi).

Definition is_cont (b : byte) : bool := in_range 128 191 b.

Fixpoint utf8_valid_aux (fuel : nat) (s : list byte) : bool :=
  match fuel with
  | O => match s with [] => true | _ => false end
  | S f =>
      match s with
      | [] => true
      | b :: r =>
          if in_range 0 127 b then utf8_valid_aux f r
          else if in_range 194 223 b then
            match r with c :: r' => is_cont c && utf8_valid_aux f r' | _ => false end
          else if in_range 224 239 b then
            match r with
            | c1 :: c2 :: r' =>
                (if byte_eqb b xe0 then in_range 160 191 c1
                 else if byte_eqb b xed then in_range 128 159 c1
                 else is_cont c1) && is_cont c2 && utf8_valid_aux f r'
            | _ => false end
          else if in_range 240 244 b then
            match r with
            | c1 :: c2 :: c3 :: r' =>
                (if byte_eqb b xf0 then in_range 144 191 c1
                 else if byte_eqb b xf4 then in_range 128 143 c1
                 else is_cont c1) && is_cont c2 && is_cont c3 && utf8_valid_aux f r'
            | _ => false end
          else false
      end
  end.

Definition utf8_valid (s : list byte) : bool := utf8_valid_aux (List.length s) s.

(** ** Orders

    [#[derive(Ord)]] orders and the [Ord] instances of [u32], [[u8; 20]]
    and [Path] are all built from a three-way comparison; the properties
    below make such a comparison a total order. *)

Class CmpSpec {A : Type} (cmp : A -> A -> comparison) : Prop := {
  cmp_sym : forall x y, cmp y x = CompOpp (cmp x y);
  cmp_eq : forall x y, cmp x y = Eq -> x = y;
  cmp_trans : forall x y z, cmp x y = Lt -> cmp y z = Lt -> cmp x z = Lt
}.

(** Lexicographic comparison, as [Ord] for slices, arrays and iterators. *)
Fixpoint lex_cmp {A} (cmp : A -> A -> comparison) (xs ys : list A) : comparison :=
  match xs, ys with
  | [], [] => Eq
  | [], _ :: _ => Lt
  | _ :: _, [] => Gt
  | x :: xs', y :: ys' =>
      match cmp x y with Eq => lex_cmp cmp xs' ys' | c => c end
  end.

(** [Ord for u8] *)
Definition byte_cmp (a b : byte) : comparison := N.compare (Byte.to_N a) (Byte.to_N b).

(** [std::path::Component] on Unix, with its derived [Ord]:
    [RootDir < CurDir < ParentDir < Normal], [Normal] by its bytes. *)
Inductive Component : Type :=
| RootDir
| CurDir
| ParentDir
| Normal (name : list byte).

Definition component_rank (c : Component) : N :=
  match c with RootDir => 1 | CurDir => 2 | ParentDir => 3 | Normal _ => 4 end.

Definition component_cmp (c d : Component) : comparison :=
  match c, d with
  | Normal a, Normal b => lex_cmp byte_cmp a b
  | _, _ => N.compare (component_rank c) (component_rank d)
  end.

(** Splitting a path at each [/]. *)
Fixpoint split_sep (s : list byte) : list (list byte) :=
  match s with
  | [] => [[]]
  | b :: r =>
      let parts := split_sep r in
      if byte_eqb b x2f then [] :: parts
      else match parts with
           | p :: ps => (b :: p) :: ps
           | [] => [[b]]
           end
  end.

(** The body components: empty parts and [.] are skipped, [..] is [ParentDir]. *)
Definition body_components (parts : list (list byte)) : list Component :=
  flat_map (fun p =>
    if bytes_eqb p [] then []
    else if bytes_eqb p [x2e] then []
    else if bytes_eqb p [x2e; x2e] then [ParentDir]
    else [Normal p]) parts.

(** [Path::components] on Unix: a leading [/] is [RootDir]; a leading [.]
    (followed by [/] or the end) is [CurDir]. *)
Definition components (p : list byte) : list Component :=
  match p with
  | b :: _ =>
      if byte_eqb b x2f then RootDir :: body_components (tl (split_sep p))
      else match split_sep p with
           | first :: rest =>
               if bytes_eqb first [x2e] then CurDir :: body_components rest
               else body_components (first :: rest)
           | [] => []
           end
  | [] => []
  end.

(** [Ord for Path] compares the components; [PartialEq for Path] is
    equality of the components. *)
Definition path_cmp (p q : list byte) : comparison :=
  lex_cmp component_cmp (components p) (components q).

Definition comparison_eqb (c d : comparison) : bool :=
  match c, d with Eq, Eq | Lt, Lt | Gt, Gt => true | _, _ => false end.

Definition path_eqb (p q : list byte) : bool := comparison_eqb (path_cmp p q) Eq.

(** ** Index entries *)

(** [struct IndexEntry { mode: u32, sha1: [u8; 20], path: PathBuf }] *)
Record IndexEntry : Type := mkIndexEntry {
  mode : N;
  sha1 : list byte;
  path : list byte
}.

(** [#[derive(Ord)]]: by [mode], then [sha1], then [path]. *)
Definition entry_cmp (e f : IndexEntry) : comparison :=
  match N.compare (mode e) (mode f) with
  | Eq =>
      match lex_cmp byte_cmp (sha1 e) (sha1 f) with
      | Eq => path_cmp (path e) (path f)
      | c => c
      end
  | c => c
  end.

Definition entry_le (e f : IndexEntry) : Prop := entry_cmp e f <> Gt.

(** [Vec::sort] is a stable sort.  All stable sorts by the same order give
    the same list, so we use insertion sort; an element goes in front of
    the elements that compare equal to it, keeping their relative order. *)
Fixpoint insert_sorted (x : IndexEntry) (l : list IndexEntry) : list IndexEntry :=
  match l with
  | [] => [x]
  | y :: l' =>
      match entry_cmp x y with
      | Gt => y :: insert_sorted x l'
      | _ => x :: y :: l'
      end
  end.

Fixpoint sort (l : list IndexEntry) : list IndexEntry :=
  match l with
  | [] => []
  | x :: l' => insert_sorted x (sort l')
  end.

(** ** Objects, store and repository *)

(** [struct BlobObject], [struct TreeObject], [struct CommitObject]: the
    three have the same shape. *)
Record GitObject : Type := mkObject {
  hash : list byte;
  compressed_content : list byte;
  raw_content : list byte
}.

Inductive GitObjects : Type :=
| Blob (b : GitObject)
| Tree (t : GitObject)
| Commit (c : GitObject).

Inductive GitObjectsArgs : Type :=
| BlobArgs (data : list byte)
| TreeArgs
| CommitArgs (message : list byte) (tree_hash : list byte) (parent_hash : option (list byte)).

(** The errors the code raises, named after their messages. *)
Inductive Error : Type :=
| NotARepository           (* "fatal: not a mini-git repository ..." *)
| FailedToRead             (* "Failed to read ..." (file to stage) *)
| InvalidHashLength        (* "Invalid hash length: ..." *)
| ObjectDoesNotExist       (* "fatal: object ... does not exist" *)
| DecompressError          (* error of [decompress_content] *)
| CorruptIndex             (* "Failed to decode index file" *)
| Utf8Error                (* error of [from_utf8] *)
| ObjectTypeNotImplemented (* "Object type ... not yet implemented" *)
| TreeHashNotValidObject   (* "Tree hash not a valid object" *)
| ParentHashNotValidObject (* "Parent hash not a valid object" *)
| ShaTruncated             (* "Malformed tree object: SHA-1 truncated" *)
| FailedToReadObject.      (* "Failed to read object file ..." *)

(** A call returns a value, returns an error, or panics. *)
Inductive Outcome (A : Type) : Type :=
| Ok (a : A)
| Err (e : Error)
| Panic.
Arguments Ok {A} a.
Arguments Err {A} e.
Arguments Panic {A}.

(** The [index] file. *)
Inductive IndexFileState : Type :=
| IndexMissing                            (* no regular file at [index] *)
| IndexEmpty                              (* zero-length, as written by [init] *)
| IndexEncoded (entries : list IndexEntry)
| IndexUndecodable.

(** The [.mini-git] directory. *)
Record Repo : Type := mkRepo {
  objects_is_dir : bool;
  index_file : IndexFileState;
  objects : list ((list byte * list byte) * list byte)
}.

Definition key_eqb (k l : list byte * list byte) : bool :=
  bytes_eqb (fst k) (fst l) && bytes_eqb (snd k) (snd l).

(** A name a directory can hold: one path component, so no ['/'] and no
    NUL byte, and not ["."] or [".."]. *)
Definition name_ok (c : list byte) : bool :=
  forallb (fun b => negb (byte_eqb b x2f) && negb (byte_eqb b x00)) c &&
  negb (bytes_eqb c [x2e]) && negb (bytes_eqb c [x2e; x2e]).

Definition key_ok (k : list byte * list byte) : bool := name_ok (fst k) && name_ok (snd k).

(** The object file [objects/<dir>/<file>] of a key; a key whose parts are
    not file names names no object file. *)
Definition obj_lookup (k : list byte * list byte) (s : list ((list byte * list byte) * list byte))
  : option (list byte) :=
  if key_ok k then option_map snd (find (fun kv => key_eqb (fst kv) k) s) else None.

(** [fs::write]: the file is created or overwritten. *)
Definition obj_write (k : list byte * list byte) (v : list byte)
  (s : list ((list byte * list byte) * list byte)) :=
  (k, v) :: filter (fun kv => negb (key_eqb (fst kv) k)) s.

(** A state and error monad over [Repo]; errors and panics keep the state
    reached so far. *)
Definition M (A : Type) : Type := Repo -> Outcome A * Repo.

Definition ret {A} (a : A) : M A := fun r => (Ok a, r).
Definition fail {A} (e : Error) : M A := fun r => (Err e, r).
Definition panic {A} : M A := fun r => (Panic, r).
Definition get : M Repo := fun r => (Ok r, r).
Definition put (r' : Repo) : M unit := fun _ => (Ok tt, r').

Definition bind {A B} (m : M A) (k : A -> M B) : M B :=
  fun r =>
    match m r with
    | (Ok a, r') => k a r'
    | (Err e, r') => (Err e, r')
    | (Panic, r') => (Panic, r')
    end.

Notation "x <- m ;; k" := (bind m (fun x => k)) (at level 61, m at next level, right associativity).
Notation "m ;;; k" := (bind m (fun _ => k)) (at level 61, right associativity).

Definition set_index (st : IndexFileState) (r : Repo) : Repo :=
  mkRepo (objects_is_dir r) st (objects r).

Definition set_objects (s : list ((list byte * list byte) * list byte)) (r : Repo) : Repo :=
  mkRepo (objects_is_dir r) (index_file r) s.

Definition index_is_file (st : IndexFileState) : bool :=
  match st with IndexMissing => false | _ => true end.

(** ** The file system outside the object store *)

(** What is at a path. *)
Inductive HostEntry : Type :=
| NoEntry
| DirEntry
| FileEntry (contents : list byte).

(** The working directory ([env::current_dir()]) and what is at each path
    that is not an object file [objects/<dir>/<file>] of the store. *)
Record Host : Type := mkHost {
  current_dir : list byte;
  host_entry : list byte -> HostEntry
}.

Definition starts_with_sep (p : list byte) : bool :=
  match p with b :: _ => byte_eqb b x2f | [] => false end.

Definition ends_without_sep (p : list byte) : bool :=
  match rev p with b :: _ => negb (byte_eqb b x2f) | [] => false end.

(** [Path::join] on Unix ([PathBuf::push]): an absolute [p] replaces the
    path; otherwise a ['/'] is added first unless the path is empty or
    already ends with one. *)
Definition path_join (base p : list byte) : list byte :=
  if starts_with_sep p then p
  else if ends_without_sep base then base ++ [x2f] ++ p
  else base ++ p.

(** The path [get_object_path] returns: the object file of a key of the
    store, or another path. *)
Inductive ObjPath : Type :=
| StorePath (key : list byte * list byte)
| HostPath (p : list byte).

(** [CommitObject::new]'s fixed identity. *)
Definition author_ident : list byte := bytes "Francis Eugene Casibu <email@example.com> ".

Section Model.

(** [hash_content] (SHA-1), [compress_content] and [decompress_content]
    (zlib); [decompress_content] may fail. *)
Variable hash_content : list byte -> list byte.
Variable compress_content : list byte -> list byte.
Variable decompress_content : list byte -> option (list byte).

(** The rest of the file system. *)
Variable host : Host.

(** [BlobObject::new] *)
Definition BlobObject_new (raw : list byte) : GitObject :=
  let header := bytes "blob " ++ dec_nat (List.length raw) ++ [x00] in
  let object_content := header ++ raw in
  mkObject (hash_content object_content) (compress_content object_content) raw.

(** The [for entry in entries] loop of [TreeObject::new]. *)
Fixpoint tree_entries_loop (raw : list byte) (entries : list IndexEntry) : list byte :=
  match entries with
  | [] => raw
  | e :: es =>
      tree_entries_loop
        (raw ++ dec_N (mode e) ++ [x20] ++ path e ++ [x00] ++ sha1 e) es
  end.

(** [TreeObject::new]; [to_string_lossy] is the identity on the UTF-8
    paths the program stages. *)
Definition TreeObject_new (entries : list IndexEntry) : GitObject :=
  let raw := tree_entries_loop [] entries in
  let header := bytes "tree " ++ dec_nat (List.length raw) ++ [x00] in
  let full := header ++ raw in
  mkObject (hash_content full) (compress_content full) raw.

(** [CommitObject::new]; [Local::now()] is the input [(timestamp, offset_secs)]. *)
Definition CommitObject_new (message tree_hex : list byte) (parent : option (list byte))
  (timestamp offset_secs : Z) : GitObject :=
  let sign := if (0 <=? offset_secs)%Z then bytes "+" else bytes "-" in
  let abs_offset := Z.to_N (Z.abs offset_secs) in
  let hours := abs_offset / 3600 in
  let minutes := (abs_offset mod 3600) / 60 in
  let timezone := sign ++ dec_pad2 hours ++ dec_pad2 minutes in
  let ident := dec_Z timestamp ++ [x20] ++ timezone ++ [x0a] in
  let metadata :=
    bytes "tree " ++ tree_hex ++ [x0a] ++
    match parent with
    | Some p => bytes "parent " ++ hex_encode p ++ [x0a]
    | None => []
    end ++
    bytes "author " ++ author_ident ++ ident ++
    bytes "committer " ++ author_ident ++ ident ++ [x0a] in
  let raw := metadata ++ message in
  let full := bytes "commit " ++ dec_nat (List.length raw) ++ [x00] ++ raw in
  mkObject (hash_content full) (compress_content full) raw.

(** [Repository::read_index] *)
Definition read_index : M (list IndexEntry) :=
  r <- get ;;
  match index_file r with
  | IndexMissing => fail NotARepository
  | IndexEmpty => ret []
  | IndexEncoded es => ret es
  | IndexUndecodable => fail CorruptIndex
  end.

(** [Repository::write_object]; the [now] of a commit is an input.
    [encode(hash).split_at(2)] cannot panic: the hash is a [[u8; 20]]. *)
Definition write_object (now : Z * Z) (args : GitObjectsArgs) : M (list byte * list byte) :=
  r <- get ;;
  if negb (objects_is_dir r) then fail NotARepository else
  o <- match args with
       | BlobArgs data => ret (BlobObject_new data)
       | TreeArgs => index <- read_index ;; ret (TreeObject_new index)
       | CommitArgs m t p => ret (CommitObject_new m t p (fst now) (snd now))
       end ;;
  let encoded_hash := hex_encode (hash o) in
  let key := (firstn 2 encoded_hash, skipn 2 encoded_hash) in
  r' <- get ;;
  put (set_objects (obj_write key (compressed_content o) (objects r')) r') ;;;
  ret (hash o, encoded_hash).

(** [Repository::add_to_index]; [file] is the content of [file_path] in
    the working tree ([None]: missing or unreadable). *)
Definition add_to_index (file_path : list byte) (file : option (list byte)) : M unit :=
  r <- get ;;
  if negb (index_is_file (index_file r)) then fail NotARepository else
  match file with
  | None => fail FailedToRead
  | Some data =>
      hs <- write_object (0%Z, 0%Z) (BlobArgs data) ;;
      let sha := fst hs in
      entries <- read_index ;;
      entries' <-
        match position (fun e => path_eqb (path e) file_path) entries with
        | Some pos =>
            match nth_error entries pos with
            | Some e =>
                if negb (bytes_eqb (sha1 e) sha)
                then ret (replace_at pos (mkIndexEntry 100644 sha file_path) entries)
                else ret entries
            | None => panic
            end
        | None => ret (entries ++ [mkIndexEntry 100644 sha file_path])
        end ;;
      r' <- get ;;
      put (set_index (IndexEncoded (sort entries')) r')
  end.

(** [Repository::objects_dir]: [current_dir().join(".mini-git").join("objects")]. *)
Definition objects_dir : list byte :=
  path_join (path_join (current_dir host) (bytes ".mini-git")) (bytes "objects").

(** [Repository::get_object_path]: [objects_dir.join(dir_prefix).join(file_suffix)].
    When both parts are file names this is the object file
    [objects/<dir>/<file>] of the store; otherwise (a part with ['/'] or a
    NUL byte, ["."] or [".."]) it is another path, and an absolute
    [file_suffix] replaces the whole path. *)
Definition get_object_path (hash_str : list byte) : M ObjPath :=
  if negb (Nat.eqb (List.length hash_str) 40) then fail InvalidHashLength
  else if negb (is_char_boundary hash_str 2) then panic
  else
    let dir_prefix := firstn 2 hash_str in
    let file_suffix := skipn 2 hash_str in
    if key_ok (dir_prefix, file_suffix) then ret (StorePath (dir_prefix, file_suffix))
    else ret (HostPath (path_join (path_join objects_dir dir_prefix) file_suffix)).

(** What [Path::exists] and [fs::read] find at a path; a path with a NUL
    byte names nothing (the system call is not made). *)
Definition path_entry (r : Repo) (p : ObjPath) : HostEntry :=
  match p with
  | StorePath key =>
      match obj_lookup key (objects r) with Some bs => FileEntry bs | None => NoEntry end
  | HostPath q => if existsb (fun b => byte_eqb b x00) q then NoEntry else host_entry host q
  end.

(** [path.exists()] *)
Definition object_exists (p : ObjPath) : M bool :=
  r <- get ;; ret (match path_entry r p with NoEntry => false | _ => true end).

(** [decompressed.iter().position(..).unwrap()] *)
Definition position_unwrap (b : byte) (buf : list byte) : M nat :=
  match position (fun c => byte_eqb c b) buf with
  | Some i => ret i
  | None => panic
  end.

(** [Repository::read_object] *)
Definition read_object (object_hash_str : list byte) : M GitObjects :=
  r <- get ;;
  if negb (objects_is_dir r) then fail NotARepository else
  object_file_path <- get_object_path object_hash_str ;;
  r1 <- get ;;
  match path_entry r1 object_file_path with
  | NoEntry => fail ObjectDoesNotExist
  | DirEntry => fail FailedToReadObject
  | FileEntry compressed_data =>
      match decompress_content compressed_data with
      | None => fail DecompressError
      | Some decompressed =>
          space <- position_unwrap x20 decompressed ;;
          null_terminator_position <- position_unwrap x00 decompressed ;;
          let object_type := firstn space decompressed in
          let content := skipn (S null_terminator_position) decompressed in
          if negb (utf8_valid object_type) then fail Utf8Error
          else if bytes_eqb object_type (bytes "blob") then
            (if utf8_valid content then ret (Blob (BlobObject_new content))
             else fail Utf8Error)
          else if bytes_eqb object_type (bytes "tree") then
            index <- read_index ;; ret (Tree (TreeObject_new index))
          else if bytes_eqb object_type (bytes "commit") then
            ret (Commit (mkObject (hash_content decompressed) compressed_data content))
          else fail ObjectTypeNotImplemented
      end
  end.

(** [Repository::commit_tree] *)
Definition commit_tree (now : Z * Z) (message tree_hash : list byte)
  (parent_hash : option (list byte)) : M (list byte * list byte) :=
  r <- get ;;
  if negb (objects_is_dir r) then fail NotARepository else
  tree_path <- get_object_path tree_hash ;;
  tex <- object_exists tree_path ;;
  if negb tex then fail TreeHashNotValidObject else
  (match parent_hash with
   | Some p =>
       parent_path <- get_object_path (hex_encode p) ;;
       pex <- object_exists parent_path ;;
       if negb pex then fail ParentHashNotValidObject else ret tt
   | None => ret tt
   end) ;;;
  write_object now (CommitArgs message tree_hash parent_hash).

(** [Repository::write_tree] *)
Definition write_tree : M (list byte * list byte) :=
  r <- get ;;
  if negb (objects_is_dir r) then fail NotARepository else
  write_object (0%Z, 0%Z) TreeArgs.

End Model.

(** ** The tree walk of [handle_cat_file_command] ([cat-file -p] on a tree) *)

(** [while raw[i] != b { i += 1 }]: the bytes before the first [b] and the
    bytes after it; [None] when [raw[i]] would run past the end (a panic). *)
Fixpoint scan_until (b : byte) (raw : list byte) : option (list byte * list byte) :=
  match raw with
  | [] => None
  | c :: r =>
      if byte_eqb c b then Some ([], r)
      else match scan_until b r with
           | Some (pre, post) => Some (c :: pre, post)
           | None => None
           end
  end.

(** One printed line: mode, hex digest, path. *)
Definition TreeLine : Type := (list byte * list byte * list byte)%type.

(** The [while i < raw.len()] loop, on the bytes from [i] on; each round
    consumes at least one byte, so [List.length raw] rounds suffice. *)
Fixpoint walk_tree_aux (fuel : nat) (raw : list byte) : Outcome (list TreeLine) :=
  match raw with
  | [] => Ok []
  | _ :: _ =>
      match fuel with
      | O => Panic
      | S f =>
          match scan_until x20 raw with
          | None => Panic
          | Some (m, rest1) =>
              if negb (utf8_valid m) then Err Utf8Error else
              match scan_until x00 rest1 with
              | None => Panic
              | Some (p, rest2) =>
                  if negb (utf8_valid p) then Err Utf8Error
                  else if Nat.ltb (List.length rest2) 20 then Err ShaTruncated
                  else match walk_tree_aux f (skipn 20 rest2) with
                       | Ok lines => Ok ((m, hex_encode (firstn 20 rest2), p) :: lines)
                       | o => o
                       end
              end
          end
      end
  end.

Definition walk_tree (raw : list byte) : Outcome (list TreeLine) :=
  walk_tree_aux (List.length raw) raw.

(** The bytes of one entry of a tree body: mode, space, path, NUL, digest. *)
Definition raw_tree_entry (e : list byte * list byte * list byte) : list byte :=
  let '(m, p, h) := e in m ++ x20 :: p ++ x00 :: h.

(** An entry the walk reads whole: a UTF-8 mode without a space, a UTF-8
    path without a NUL byte and a 20-byte digest. *)
Definition whole_entry (e : list byte * list byte * list byte) : Prop :=
  let '(m, p, h) := e in
  ~ In x20 m /\ ~ In x00 p /\ utf8_valid m = true /\ utf8_valid p = true /\ List.length h = 20%nat.

(** ** Reachable repositories

    A repository reached from [init] (an empty [index] file) by staging
    calls, each of which either succeeds or fails. *)
Inductive reachable (H C : list byte -> list byte) : Repo -> Prop :=
| reach_init : forall dir objs,
    reachable H C (mkRepo dir IndexEmpty objs)
| reach_stage : forall r p file,
    reachable H C r ->
    reachable H C (snd (add_to_index H C p file r)).

(** Lexicographic comparison of pairs, as [#[derive(Ord)]] does on fields. *)
Definition prod_cmp {A B} (ca : A -> A -> comparison) (cb : B -> B -> comparison)
  (x y : A * B) : comparison :=
  match ca (fst x) (fst y) with Eq => cb (snd x) (snd y) | c => c end.

(** An entry compares by its key (mode, digest, path components). *)
Definition entry_key (e : IndexEntry) : N * (list byte * list Component) :=
  (mode e, (sha1 e, components (path e))).

Definition key_cmp := prod_cmp N.compare (prod_cmp (lex_cmp byte_cmp) (lex_cmp component_cmp)).

(** The three branches of the index update in [add_to_index]: replace the
    entry of the path when its digest differs, keep it when it is equal,
    append a new entry when the path has none. *)
Inductive staged (p sha : list byte) : list IndexEntry -> list IndexEntry -> Prop :=
| staged_replace : forall es pos e,
    position (fun e => path_eqb (path e) p) es = Some pos ->
    nth_error es pos = Some e -> bytes_eqb (sha1 e) sha = false ->
    staged p sha es (replace_at pos (mkIndexEntry 100644 sha p) es)
| staged_same : forall es pos e,
    position (fun e => path_eqb (path e) p) es = Some pos ->
    nth_error es pos = Some e -> bytes_eqb (sha1 e) sha = true ->
    staged p sha es es
| staged_push : forall es,
    position (fun e => path_eqb (path e) p) es = None ->
    staged p sha es (es ++ [mkIndexEntry 100644 sha p]).

(** The invariant of the staging index. *)
Definition index_inv (es : list IndexEntry) : Prop :=
  Sorted entry_le es /\
  NoDup (map (fun e => components (path e)) es) /\
  Forall (fun e => mode e = 100644) es.

(** ** Text helpers of the command handlers *)

(** [str::trim_end_matches('\n')] *)
Fixpoint drop_newlines (s : list byte) : list byte :=
  match s with
  | b :: r => if byte_eqb b x0a then drop_newlines r else s
  | [] => []
  end.

Definition trim_end_newlines (s : list byte) : list byte := rev (drop_newlines (rev s)).

(** The UTF-8 encodings of the characters with the Unicode [White_Space]
    property ([char::is_whitespace]): U+0009..U+000D, U+0020, U+0085,
    U+00A0, U+1680, U+2000..U+200A, U+2028, U+2029, U+202F, U+205F, U+3000. *)
Definition whitespace_seqs : list (list byte) :=
  [[x09]; [x0a]; [x0b]; [x0c]; [x0d]; [x20]; [xc2; x85]; [xc2; xa0];
   [xe1; x9a; x80];
   [xe2; x80; x80]; [xe2; x80; x81]; [xe2; x80; x82]; [xe2; x80; x83];
   [xe2; x80; x84]; [xe2; x80; x85]; [xe2; x80; x86]; [xe2; x80; x87];
   [xe2; x80; x88]; [xe2; x80; x89]; [xe2; x80; x8a];
   [xe2; x80; xa8]; [xe2; x80; xa9]; [xe2; x80; xaf]; [xe2; x81; x9f];
   [xe3; x80; x80]].

Definition starts_with (w s : list byte) : bool := bytes_eqb (firstn (List.length w) s) w.

(** Removing leading characters whose encodings are in [seqs]; each round
    removes at least one byte. *)
Fixpoint strip_prefixes (seqs : list (list byte)) (fuel : nat) (s : list byte) : list byte :=
  match fuel with
  | O => s
  | S f =>
      match find (fun w => starts_with w s) seqs with
      | Some w => strip_prefixes seqs f (skipn (List.length w) s)
      | None => s
      end
  end.

Definition trim_start (s : list byte) : list byte :=
  strip_prefixes whitespace_seqs (List.length s) s.

(** On well-formed UTF-8 a trailing encoding of a whitespace character is
    a whole character, so [trim_end] strips the reversed encodings from
    the reversed bytes. *)
Definition trim_end (s : list byte) : list byte :=
  rev (strip_prefixes (map (@rev byte) whitespace_seqs) (List.length s) (rev s)).

(** [str::trim] *)
Definition trim (s : list byte) : list byte := trim_end (trim_start s).

(** The [val] function of the [hex] crate: the value of a hex digit,
    either case. *)
Definition hex_val (b : byte) : option N :=
  let n := Byte.to_N b in
  if (48 <=? n) && (n <=? 57) then Some (n - 48)
  else if (97 <=? n) && (n <=? 102) then Some (n - 87)
  else if (65 <=? n) && (n <=? 70) then Some (n - 55)
  else None.

Definition byte_of_N (n : N) : byte :=
  match Byte.of_N n with Some b => b | None => x00 end.

Fixpoint hex_decode_pairs (s : list byte) : option (list byte) :=
  match s with
  | [] => Some []
  | hi :: lo :: r =>
      match hex_val hi, hex_val lo, hex_decode_pairs r with
      | Some h, Some l, Some out => Some (byte_of_N (h * 16 + l) :: out)
      | _, _, _ => None
      end
  | [_] => None
  end.

(** [hex::decode_to_slice(data, out)] with [out] of length [n]: odd
    length and a length other than [2 * n] are errors, then each pair of
    digits gives one byte. *)
Definition decode_to_slice (data : list byte) (n : nat) : option (list byte) :=
  if Nat.odd (List.length data) then None
  else if negb (Nat.eqb (List.length data / 2) n) then None
  else hex_decode_pairs data.

(** ** The command handlers *)

(** The errors raised by the handlers themselves; [RepoError] is an
    error returned by a [Repository] method or by [from_utf8]. *)
Inductive CliError : Type :=
| RepoError (e : Error)
| FileDoesNotExist        (* "fatal: file does not exist ..." *)
| ReadToStringError       (* [read_to_string] on bytes that are not UTF-8 *)
| EmptyObjectHash         (* "fatal: object hash cannot be empty" *)
| NotAValidObjectName     (* "fatal: Not a valid object name: ..." *)
| NoTypeOrPrint           (* "Error: you must specify one of -t (type) or -p (print)" *)
| InvalidParentHashFormat (* "Invalid parent commit hash format: ..." *)
| ParentDecodeError       (* "Failed to decode parent hash ..." *)
| CreateDirFailed         (* "Failed to create ... directory ..." ([init]) *)
| WriteFileFailed.        (* "Failed to write ... file ..." ([init]) *)

Inductive CliOutcome (A : Type) : Type :=
| COk (a : A)
| CErr (e : CliError)
| CPanic.
Arguments COk {A} a.
Arguments CErr {A} e.
Arguments CPanic {A}.

(** The process: the repository and the lines printed to standard output
    so far (each [println!] adds one line). *)
Record Cli : Type := mkCli {
  repo : Repo;
  stdout : list (list byte)
}.

Definition CM (A : Type) : Type := Cli -> CliOutcome A * Cli.

Definition cret {A} (a : A) : CM A := fun s => (COk a, s).
Definition cfail {A} (e : CliError) : CM A := fun s => (CErr e, s).
Definition cpanic {A} : CM A := fun s => (CPanic, s).

Definition cbind {A B} (m : CM A) (k : A -> CM B) : CM B :=
  fun s =>
    match m s with
    | (COk a, s') => k a s'
    | (CErr e, s') => (CErr e, s')
    | (CPanic, s') => (CPanic, s')
    end.

Notation "x <-- m ;; k" := (cbind m (fun x => k)) (at level 61, m at next level, right associativity).
Notation "m ;;;; k" := (cbind m (fun _ => k)) (at level 61, right associativity).

(** [println!("{}", line)] *)
Definition println (line : list byte) : CM unit :=
  fun s => (COk tt, mkCli (repo s) (stdout s ++ [line])).

(** A [Repository] call, with [?] on its result. *)
Definition lift {A} (m : M A) : CM A :=
  fun s =>
    match m (repo s) with
    | (Ok a, r) => (COk a, mkCli r (stdout s))
    | (Err e, r) => (CErr (RepoError e), mkCli r (stdout s))
    | (Panic, r) => (CPanic, mkCli r (stdout s))
    end.

(** [fs::read_to_string] and [Read::read_to_string] on standard input:
    the bytes must be UTF-8. *)
Definition read_to_string (bs : list byte) : CM (list byte) :=
  if utf8_valid bs then cret bs else cfail ReadToStringError.

(** How the file system calls of [Repository::init] outside [Repo] turn out. *)
Record InitEnv : Type := mkInitEnv {
  mini_git_exists : bool;  (* something is at [.mini-git] *)
  mini_git_created : bool; (* [fs::create_dir(.mini-git)] succeeds *)
  objects_created : bool;  (* [fs::create_dir_all(objects)] succeeds when [objects/] is no directory *)
  refs_created : bool;     (* [fs::create_dir_all] of [refs/heads] and [refs/tags] succeed *)
  head_ready : bool;       (* [HEAD] exists, or [fs::write] creates it *)
  index_exists : bool;     (* something that is not a regular file is at [index] *)
  index_created : bool     (* [fs::write] creates the empty [index] *)
}.

Section Handlers.

Variable hash_content : list byte -> list byte.
Variable compress_content : list byte -> list byte.
Variable decompress_content : list byte -> option (list byte).
Variable host : Host.

(** [handle_hash_object_command]. [file_path] is [None] without a path
    argument, [Some None] for a path that does not exist and
    [Some (Some bs)] for a readable file with contents [bs]; [stdin] is
    the standard input. *)
Definition handle_hash_object_command (file_path : option (option (list byte)))
  (stdin : list byte) (write : bool) : CM unit :=
  input_data <--
    match file_path with
    | Some None => cfail FileDoesNotExist
    | Some (Some contents) => read_to_string contents
    | None => buf <-- read_to_string stdin ;; cret (trim_end_newlines buf)
    end ;;
  encoded_hash <--
    (if write then
       hs <-- lift (write_object hash_content compress_content (0%Z, 0%Z) (BlobArgs input_data)) ;;
       cret (snd hs)
     else cret (hex_encode (hash (BlobObject_new hash_content compress_content input_data)))) ;;
  println encoded_hash.

(** The [while i < raw.len()] loop of [cat-file -p] on a tree, printing
    each entry as soon as it is read (the steps of [walk_tree_aux]); each
    round consumes at least one byte, so [List.length raw] rounds suffice. *)
Fixpoint print_tree_entries (fuel : nat) (raw : list byte) : CM unit :=
  match raw with
  | [] => cret tt
  | _ :: _ =>
      match fuel with
      | O => cpanic
      | S f =>
          match scan_until x20 raw with
          | None => cpanic
          | Some (mode, rest1) =>
              if negb (utf8_valid mode) then cfail (RepoError Utf8Error) else
              match scan_until x00 rest1 with
              | None => cpanic
              | Some (path, rest2) =>
                  if negb (utf8_valid path) then cfail (RepoError Utf8Error)
                  else if Nat.ltb (List.length rest2) 20 then cfail (RepoError ShaTruncated)
                  else println (mode ++ [x20] ++ hex_encode (firstn 20 rest2) ++ [x20] ++ path) ;;;;
                       print_tree_entries f (skipn 20 rest2)
              end
          end
      end
  end.

(** [handle_cat_file_command]; [object_hash_input] is the argument (a
    Rust [String], so UTF-8), [stdin] the standard input.  [chars().all(..)]
    is taken byte by byte: the bytes of a non-ASCII character are no
    ASCII hex digits. *)
Definition handle_cat_file_command (object_hash_input : option (list byte)) (stdin : list byte)
  (show_type print_content : bool) : CM unit :=
  object_hash_str <--
    match object_hash_input with
    | Some text => cret (trim text)
    | None => buffer <-- read_to_string stdin ;; cret (trim buffer)
    end ;;
  if Nat.eqb (List.length object_hash_str) 0 then cfail EmptyObjectHash else
  if negb (Nat.eqb (List.length object_hash_str) 40)
     || negb (forallb is_ascii_hexdigit object_hash_str) then cfail NotAValidObjectName else
  if negb show_type && negb print_content then cfail NoTypeOrPrint else
  object <-- lift (read_object hash_content compress_content decompress_content host object_hash_str) ;;
  match object with
  | Blob blob_object =>
      (if show_type then println (bytes "blob") else cret tt) ;;;;
      (if print_content then println (raw_content blob_object) else cret tt)
  | Tree tree_object =>
      (if show_type then println (bytes "tree") else cret tt) ;;;;
      (if print_content then
         print_tree_entries (List.length (raw_content tree_object)) (raw_content tree_object)
       else cret tt)
  | Commit commit_object =>
      (if show_type then println (bytes "commit") else cret tt) ;;;;
      (if print_content then
         (if utf8_valid (raw_content commit_object) then println (raw_content commit_object)
          else cfail (RepoError Utf8Error))
       else cret tt)
  end.

(** The lines of [ls-files --stage]: mode, hex digest, path ([display()]
    is the identity on the UTF-8 paths the program stages). *)
Fixpoint print_index_entries (entries : list IndexEntry) : CM unit :=
  match entries with
  | [] => cret tt
  | e :: es =>
      println (dec_N (mode e) ++ [x20] ++ hex_encode (sha1 e) ++ [x20] ++ path e) ;;;;
      print_index_entries es
  end.

(** [handle_ls_files_command] *)
Definition handle_ls_files_command (stage : bool) : CM unit :=
  if stage then
    entries <-- lift read_index ;;
    print_index_entries entries
  else cret tt.

(** [handle_write_tree] *)
Definition handle_write_tree : CM unit :=
  hs <-- lift (write_tree hash_content compress_content) ;;
  println (snd hs).

(** [handle_commit_tree]; [stdin] holds the commit message. *)
Definition handle_commit_tree (now : Z * Z) (target_tree_hash : list byte)
  (parent_hash_hex_opt : option (list byte)) (stdin : list byte) : CM unit :=
  buf <-- read_to_string stdin ;;
  let commit_message := trim_end_newlines buf in
  parent_sha1_bytes <--
    match parent_hash_hex_opt with
    | None => cret None
    | Some hex_str =>
        if negb (Nat.eqb (List.length hex_str) 40) || negb (forallb is_ascii_hexdigit hex_str)
        then cfail InvalidParentHashFormat
        else match decode_to_slice hex_str 20 with
             | Some decoded_bytes => cret (Some decoded_bytes)
             | None => cfail ParentDecodeError
             end
    end ;;
  hs <-- lift (commit_tree hash_content compress_content host now commit_message
                 target_tree_hash parent_sha1_bytes) ;;
  println (snd hs).

(** [Repository::init]: creates [.mini-git] when nothing is there,
    [objects/], [refs/heads] and [refs/tags] ([create_dir_all]), [HEAD]
    when it does not exist, and an empty [index] file when nothing is at
    [index]; what is already there is kept.  [env] says how the file
    system calls outside [Repo] turn out. *)
Definition init (env : InitEnv) : CM unit :=
  r <-- lift get ;;
  let mini_git_dir := path_join (current_dir host) (bytes ".mini-git") in
  (if objects_is_dir r || index_is_file (index_file r) || mini_git_exists env
   then println (bytes "Reinitialized existing MiniGit repository in " ++ mini_git_dir)
   else if mini_git_created env
   then println (bytes "Initialized empty MiniGit repository in " ++ mini_git_dir)
   else cfail CreateDirFailed) ;;;;
  (if objects_is_dir r || objects_created env
   then lift (put (mkRepo true (index_file r) (objects r)))
   else cfail CreateDirFailed) ;;;;
  (if refs_created env then cret tt else cfail CreateDirFailed) ;;;;
  (if head_ready env then cret tt else cfail WriteFileFailed) ;;;;
  (if index_is_file (index_file r) || index_exists env then cret tt
   else if index_created env then lift (r' <- get ;; put (set_index IndexEmpty r'))
   else cfail WriteFileFailed).

(** The parsed command line ([Commands]) together with what each command
    reads from its environment; clap's [conflicts_with] keeps [-t] and
    [-p] of [cat-file] from being both set. *)
Inductive Command : Type :=
| Init (env : InitEnv)
| HashObject (file_path : option (option (list byte))) (stdin : list byte) (write : bool)
| CatFile (object_hash_input : option (list byte)) (stdin : list byte) (show_type print_content : bool)
| UpdateIndex (add : list byte) (file : option (list byte))
| LsFiles (stage : bool)
| WriteTree
| CommitTree (now : Z * Z) (tree_hash_input : list byte) (parent : option (list byte)) (stdin : list byte).

(** [main] after [Cli::parse()] and [Repository::new()];
    [PathBuf::new().join(add)] is [add]. *)
Definition main (command : Command) : CM unit :=
  match command with
  | Init env => init env
  | HashObject file_path stdin write => handle_hash_object_command file_path stdin write
  | CatFile input stdin show_type print_content =>
      handle_cat_file_command input stdin show_type print_content
  | UpdateIndex add file => lift (add_to_index hash_content compress_content add file)
  | LsFiles stage => handle_ls_files_command stage
  | WriteTree => handle_write_tree
  | CommitTree now tree_hash_input parent stdin =>
      handle_commit_tree now tree_hash_input parent stdin
  end.

End Handlers.

(** [char::to_ascii_lowercase] on a string, byte by byte. *)
Definition ascii_lower (s : list byte) : list byte :=
  map (fun b => let n := Byte.to_N b in
                if (65 <=? n) && (n <=? 90) then byte_of_N (n + 32) else b) s.

(** No object file that was there is gone. *)
Definition objects_kept (r r' : Repo) : Prop :=
  forall k, obj_lookup k (objects r) <> None -> obj_lookup k (objects r') <> None.

(** Every index entry's digest names a stored object. *)
Definition index_closed (r : Repo) : Prop :=
  forall es, fst (read_index r) = Ok es ->
  forall e, In e es ->
  obj_lookup (firstn 2 (hex_encode (sha1 e)), skipn 2 (hex_encode (sha1 e))) (objects r) <> None.

(** ** Notions used by the properties of the commands *)

(** A decimal ASCII digit. *)
Definition is_digit (b : byte) : Prop := 48 <= Byte.to_N b <= 57.

(** The bytes [TreeObject::new] writes for one index entry. *)
Definition tree_entry_bytes (e : IndexEntry) : list byte :=
  dec_N (mode e) ++ [x20] ++ path e ++ [x00] ++ sha1 e.

(** The line printed for an entry, by [cat-file -p] and [ls-files --stage]. *)
Definition entry_line (e : IndexEntry) : list byte :=
  dec_N (mode e) ++ [x20] ++ hex_encode (sha1 e) ++ [x20] ++ path e.

(** An entry [TreeObject::new] writes in a form [cat-file -p] reads back. *)
Definition listable (e : IndexEntry) : Prop :=
  List.length (sha1 e) = 20%nat /\ ~ In x00 (path e) /\ utf8_valid (path e) = true.

(** [m] leaves the repository as it found it. *)
Definition pure {A} (m : M A) : Prop := forall r, snd (m r) = r.

(** No stored object is lost; [keeps_index] also keeps the [index] file. *)
Definition keeps_index (r r' : Repo) : Prop :=
  objects_kept r r' /\ index_file r' = index_file r.

(** The object files are the same. *)
Definition same_objects (r r' : Repo) : Prop := objects r' = objects r.

(** [u8::to_ascii_lowercase] on one byte. *)
Definition lower_byte (b : byte) : byte :=
  let n := Byte.to_N b in if (65 <=? n) && (n <=? 90) then byte_of_N (n + 32) else b.

(** [m] keeps the relation [R] between the repository before and after. *)
Definition preserves (R : Repo -> Repo -> Prop) {A} (m : M A) : Prop := forall r, R r (snd (m r)).

(** The same for a command handler, on the repository of the CLI state. *)
Definition cpreserves (R : Repo -> Repo -> Prop) {A} (m : CM A) : Prop :=
  forall s, R (repo s) (repo (snd (m s))).

(** ** Sample instances

    Stand-ins for SHA-1 and zlib, used only to run the model on concrete
    inputs: a 20-byte "digest" (the input, cut or padded with zero bytes)
    and the identity as compression. *)
Definition sample_hash (x : list byte) : list byte := firstn 20 (x ++ repeat x00 20).
Definition sample_compress (x : list byte) : list byte := x.
Definition sample_decompress (x : list byte) : option (list byte) := Some x.

Definition sample_repo : Repo := mkRepo true IndexEmpty [].

(** A working directory [/work] with nothing outside the object store. *)
Definition sample_host : Host := mkHost (bytes "/work") (fun _ => NoEntry).


(** A working directory [/work] where the root [/] (spelled with any
    number of ['/']) is a directory. *)
Definition sample_root_host : Host :=
  mkHost (bytes "/work")
    (fun p => if forallb (fun b => byte_eqb b x2f) p then DirEntry else NoEntry).

(** Repositories the examples below run on. *)

Definition sample_tree_hex : list byte := hex_encode (sample_hash (bytes "tree 0" ++ [x00])).

Definition sample_tree_repo : Repo := snd (write_tree sample_hash sample_compress sample_repo).

Definition sample_staged_repo : Repo :=
  snd (add_to_index sample_hash sample_compress (bytes "a.txt") (Some (bytes "1")) sample_repo).

Definition sample_staged_entries : list IndexEntry :=
  [mkIndexEntry 100644 (sample_hash (bytes "blob 1" ++ [x00] ++ bytes "1")) (bytes "a.txt")].

Definition sample_corrupt_repo : Repo := mkRepo true IndexUndecodable [].

(** * Proofs *)

(** ** Total orders *)

Lemma byte_to_N_inj : forall a b : byte, Byte.to_N a = Byte.to_N b -> a = b.
Proof.
  intros a b E.
  assert (Some a = Some b) as S.
  { rewrite <- (Byte.of_to_N a), <- (Byte.of_to_N b), E. reflexivity. }
  now injection S.
Qed.

#[export] Instance N_compare_spec : CmpSpec N.compare.
Proof.
  split.
  - intros x y. apply N.compare_antisym.
  - intros x y. apply N.compare_eq.
  - intros x y z H1 H2. rewrite N.compare_lt_iff in *. lia.
Qed.

#[export] Instance byte_cmp_spec : CmpSpec byte_cmp.
Proof.
  unfold byte_cmp. split.
  - intros x y. apply N.compare_antisym.
  - intros x y E. apply byte_to_N_inj, N.compare_eq, E.
  - intros x y z H1 H2. rewrite N.compare_lt_iff in *. lia.
Qed.

Section Lex.
Context {A : Type} (cmp : A -> A -> comparison) `{CmpSpec A cmp}.

Lemma lex_cmp_sym : forall xs ys, lex_cmp cmp ys xs = CompOpp (lex_cmp cmp xs ys).
Proof.
  induction xs as [|x xs IH]; destruct ys as [|y ys]; simpl; auto.
  rewrite (cmp_sym x y). destruct (cmp x y); simpl; auto.
Qed.

Lemma lex_cmp_eq : forall xs ys, lex_cmp cmp xs ys = Eq -> xs = ys.
Proof.
  induction xs as [|x xs IH]; destruct ys as [|y ys]; simpl; try discriminate; auto.
  destruct (cmp x y) eqn:E; try discriminate.
  intros Hl. apply cmp_eq in E. subst. f_equal. auto.
Qed.

Lemma lex_cmp_refl : forall xs, lex_cmp cmp xs xs = Eq.
Proof.
  intros xs. pose proof (lex_cmp_sym xs xs) as S.
  destruct (lex_cmp cmp xs xs); simpl in S; congruence.
Qed.

Lemma lex_cmp_trans : forall xs ys zs,
  lex_cmp cmp xs ys = Lt -> lex_cmp cmp ys zs = Lt -> lex_cmp cmp xs zs = Lt.
Proof.
  induction xs as [|x xs IH]; destruct ys as [|y ys]; destruct zs as [|z zs];
    simpl; try discriminate; auto.
  destruct (cmp x y) eqn:Exy; try discriminate; destruct (cmp y z) eqn:Eyz; try discriminate;
    intros H1 H2.
  - pose proof (cmp_eq _ _ Exy). subst. rewrite Eyz. eauto.
  - pose proof (cmp_eq _ _ Exy). subst. now rewrite Eyz.
  - pose proof (cmp_eq _ _ Eyz). subst. now rewrite Exy.
  - now rewrite (cmp_trans _ _ _ Exy Eyz).
Qed.

#[export] Instance lex_cmp_spec : CmpSpec (lex_cmp cmp).
Proof. split; [apply lex_cmp_sym | apply lex_cmp_eq | apply lex_cmp_trans]. Qed.

End Lex.

#[export] Instance component_cmp_spec : CmpSpec component_cmp.
Proof.
  split.
  - intros [| | |a] [| | |b]; simpl; auto. apply lex_cmp_sym, byte_cmp_spec.
  - intros [| | |a] [| | |b]; simpl; try discriminate; auto.
    intros E. f_equal. eapply lex_cmp_eq; eauto. apply byte_cmp_spec.
  - intros [| | |a] [| | |b] [| | |c]; simpl; try discriminate; auto.
    apply lex_cmp_trans, byte_cmp_spec.
Qed.

#[export] Instance prod_cmp_spec {A B} (ca : A -> A -> comparison) (cb : B -> B -> comparison)
  `{CmpSpec A ca} `{CmpSpec B cb} : CmpSpec (prod_cmp ca cb).
Proof.
  unfold prod_cmp. split.
  - intros [a1 b1] [a2 b2]; simpl. rewrite (cmp_sym a1 a2).
    destruct (ca a1 a2) eqn:E; simpl; auto.
    apply cmp_eq in E; subst. apply cmp_sym.
  - intros [a1 b1] [a2 b2]; simpl. destruct (ca a1 a2) eqn:E; try discriminate.
    intros E2. apply cmp_eq in E, E2. congruence.
  - intros [a1 b1] [a2 b2] [a3 b3]; simpl.
    destruct (ca a1 a2) eqn:E12; try discriminate; destruct (ca a2 a3) eqn:E23;
      try discriminate; intros H1 H2.
    + pose proof (cmp_eq _ _ E12). subst. rewrite E23. eapply cmp_trans; eauto.
    + pose proof (cmp_eq _ _ E12). subst. now rewrite E23.
    + pose proof (cmp_eq _ _ E23). subst. now rewrite E12.
    + now rewrite (cmp_trans _ _ _ E12 E23).
Qed.

Lemma entry_cmp_key : forall e f, entry_cmp e f = key_cmp (entry_key e) (entry_key f).
Proof. reflexivity. Qed.

Lemma entry_cmp_sym : forall e f, entry_cmp f e = CompOpp (entry_cmp e f).
Proof. intros. rewrite !entry_cmp_key. apply cmp_sym. Qed.

Lemma entry_cmp_eq_key : forall e f, entry_cmp e f = Eq -> entry_key e = entry_key f.
Proof. intros e f. rewrite entry_cmp_key. apply cmp_eq. Qed.

Lemma entry_le_trans : forall e f g, entry_le e f -> entry_le f g -> entry_le e g.
Proof.
  unfold entry_le. intros e f g H1 H2. rewrite entry_cmp_key in *.
  destruct (key_cmp (entry_key e) (entry_key f)) eqn:Eef; try congruence.
  - apply cmp_eq in Eef. now rewrite Eef.
  - destruct (key_cmp (entry_key f) (entry_key g)) eqn:Efg; try congruence.
    + apply cmp_eq in Efg. now rewrite <- Efg, Eef.
    + now rewrite (cmp_trans _ _ _ Eef Efg).
Qed.

Lemma path_eqb_components : forall p q, path_eqb p q = true <-> components p = components q.
Proof.
  intros p q. unfold path_eqb, path_cmp. split.
  - destruct (lex_cmp component_cmp (components p) (components q)) eqn:E; try discriminate.
    intros _. eapply lex_cmp_eq; eauto. apply component_cmp_spec.
  - intros ->. rewrite lex_cmp_refl; auto. apply component_cmp_spec.
Qed.

(** ** Sorting *)

Lemma insert_sorted_perm : forall x l, Permutation (insert_sorted x l) (x :: l).
Proof.
  intros x l. induction l as [|y l IH]; simpl; auto.
  destruct (entry_cmp x y); auto.
  rewrite IH. apply perm_swap.
Qed.

Lemma sort_perm : forall l, Permutation (sort l) l.
Proof.
  induction l as [|x l IH]; simpl; auto.
  rewrite insert_sorted_perm. auto.
Qed.

Lemma insert_sorted_sorted : forall x l, Sorted entry_le l -> Sorted entry_le (insert_sorted x l).
Proof.
  intros x l. induction l as [|y l IH]; simpl; intros S.
  - auto.
  - destruct (entry_cmp x y) eqn:E.
    + constructor; auto. constructor. unfold entry_le. congruence.
    + constructor; auto. constructor. unfold entry_le. congruence.
    + apply Sorted_inv in S as [S Hd]. constructor; auto.
      assert (entry_le y x) as Hyx.
      { unfold entry_le. rewrite entry_cmp_sym, E. discriminate. }
      destruct l as [|z l]; simpl.
      * auto.
      * apply HdRel_inv in Hd. destruct (entry_cmp x z); auto.
Qed.

Lemma sort_sorted : forall l, Sorted entry_le (sort l).
Proof. induction l; simpl; auto using insert_sorted_sorted. Qed.

Lemma sort_of_sorted : forall l, Sorted entry_le l -> sort l = l.
Proof.
  induction l as [|x l IH]; simpl; intros S; auto.
  apply Sorted_inv in S as [S Hd]. rewrite IH by auto.
  destruct l as [|y l]; simpl; auto.
  apply HdRel_inv in Hd. unfold entry_le in Hd.
  destruct (entry_cmp x y); congruence.
Qed.

Lemma sorted_strongly : forall l, Sorted entry_le l -> StronglySorted entry_le l.
Proof.
  intros l S. apply Sorted_StronglySorted; auto.
  intros x y z. apply entry_le_trans.
Qed.

(** ** Lists *)

Lemma position_some : forall {A} (f : A -> bool) l i,
  position f l = Some i -> exists e, nth_error l i = Some e /\ f e = true.
Proof.
  intros A f l. induction l as [|x l IH]; simpl; intros i Hp; try discriminate.
  destruct (f x) eqn:E.
  - injection Hp as <-. exists x. split; [reflexivity | exact E].
  - destruct (position f l) as [j|] eqn:Ej; simpl in Hp; try discriminate.
    injection Hp as <-. simpl. eauto.
Qed.

Lemma position_none : forall {A} (f : A -> bool) l,
  position f l = None -> forall e, In e l -> f e = false.
Proof.
  intros A f l. induction l as [|x l IH]; simpl; intros Hp e Hin; [contradiction|].
  destruct (f x) eqn:E; try discriminate.
  destruct (position f l); try discriminate.
  destruct Hin as [<-|Hin]; auto.
Qed.

Lemma map_replace_at : forall {A B} (f : A -> B) l i x e,
  nth_error l i = Some e -> f x = f e -> map f (replace_at i x l) = map f l.
Proof.
  intros A B f l. induction l as [|y l IH]; intros [|i] x e Hn Hf; simpl in *;
    try discriminate; auto.
  - injection Hn as ->. now rewrite Hf.
  - f_equal. eauto.
Qed.

Lemma replace_at_in : forall {A} l i (x e : A),
  nth_error l i = Some e -> In x (replace_at i x l).
Proof.
  intros A l. induction l as [|y l IH]; intros [|i] x e Hn; simpl in *; try discriminate.
  - auto.
  - right. eauto.
Qed.

Lemma replace_at_incl : forall {A} l i (x e : A), In e (replace_at i x l) -> e = x \/ In e l.
Proof.
  intros A l. induction l as [|y l IH]; intros [|i] x e Hin; simpl in *; auto.
  - destruct Hin; auto.
  - destruct Hin as [<-|Hin]; auto. destruct (IH i x e Hin); auto.
Qed.

Lemma NoDup_map_inj_in : forall {A B} (f : A -> B) l a b,
  NoDup (map f l) -> In a l -> In b l -> f a = f b -> a = b.
Proof.
  intros A B f l. induction l as [|x l IH]; simpl; intros a b Hnd Ha Hb Hf; [contradiction|].
  inversion Hnd as [|y ys Hnin Hnd']; subst.
  destruct Ha as [<-|Ha]; destruct Hb as [<-|Hb]; auto.
  - exfalso. apply Hnin. rewrite Hf. now apply in_map.
  - exfalso. apply Hnin. rewrite <- Hf. now apply in_map.
Qed.

Lemma byte_eqb_refl : forall b, byte_eqb b b = true.
Proof. intros b. unfold byte_eqb. now apply Byte.byte_dec_lb. Qed.

Lemma bytes_eqb_refl : forall xs, bytes_eqb xs xs = true.
Proof. induction xs; simpl; auto. now rewrite byte_eqb_refl. Qed.

Lemma bytes_eqb_eq : forall xs ys, bytes_eqb xs ys = true -> xs = ys.
Proof.
  induction xs as [|x xs IH]; destruct ys as [|y ys]; simpl; try discriminate; auto.
  intros E. apply andb_true_iff in E as [E1 E2].
  apply Byte.byte_dec_bl in E1. subst. f_equal. auto.
Qed.

(** ** The monad and [add_to_index] *)

Lemma bind_ok : forall {A B} (m : M A) (k : A -> M B) r a r',
  m r = (Ok a, r') -> bind m k r = k a r'.
Proof. intros. unfold bind. now rewrite H. Qed.
Lemma bind_err : forall {A B} (m : M A) (k : A -> M B) r e r',
  m r = (Err e, r') -> bind m k r = (Err e, r').
Proof. intros. unfold bind. now rewrite H. Qed.
Lemma bind_panic : forall {A B} (m : M A) (k : A -> M B) r r',
  m r = (Panic, r') -> bind m k r = (Panic, r').
Proof. intros. unfold bind. now rewrite H. Qed.

Lemma write_object_blob : forall H C now data r,
  objects_is_dir r = true ->
  exists r', write_object H C now (BlobArgs data) r =
               (Ok (hash (BlobObject_new H C data), hex_encode (hash (BlobObject_new H C data))), r')
    /\ index_file r' = index_file r /\ objects_is_dir r' = true.
Proof.
  intros H C now data [dir idx objs] Hd; simpl in Hd; subst.
  unfold write_object, bind, get, put, ret; simpl.
  eexists. split; [reflexivity | auto].
Qed.

Lemma write_object_notdir : forall H C now args r,
  objects_is_dir r = false -> write_object H C now args r = (Err NotARepository, r).
Proof.
  intros H C now args [dir idx objs] Hd; simpl in Hd; subst. reflexivity.
Qed.

Lemma add_to_index_effect : forall H C p file r,
  (index_file (snd (add_to_index H C p file r)) = index_file r /\
   fst (add_to_index H C p file r) <> Ok tt) \/
  (exists data es es',
     file = Some data /\
     (index_file r = IndexEmpty /\ es = [] \/ index_file r = IndexEncoded es) /\
     staged p (hash (BlobObject_new H C data)) es es' /\
     index_file (snd (add_to_index H C p file r)) = IndexEncoded (sort es') /\
     fst (add_to_index H C p file r) = Ok tt).
Proof.
  intros H C p file r.
  unfold add_to_index. cbn [bind get].
  destruct (index_is_file (index_file r)) eqn:Hidx; cbn [negb fail];
    [|left; split; [reflexivity | discriminate]].
  destruct file as [data|]; [|left; split; [reflexivity | discriminate]].
  destruct (objects_is_dir r) eqn:Hd.
  2:{ rewrite (bind_err _ _ _ _ _ (write_object_notdir H C _ _ r Hd)).
      left; split; [reflexivity | discriminate]. }
  destruct (write_object_blob H C (0%Z, 0%Z) data r Hd) as (r1 & Hw & Hi1 & Hd1).
  rewrite (bind_ok _ _ _ _ _ Hw). cbn [fst].
  set (sha := hash (BlobObject_new H C data)).
  assert (index_file r = IndexUndecodable \/ exists es, read_index r1 = (Ok es, r1) /\
          (index_file r = IndexEmpty /\ es = [] \/ index_file r = IndexEncoded es))
    as [Hu | (es & Hr & Hes)].
  { unfold read_index. cbn [bind get]. rewrite Hi1.
    destruct (index_file r) as [| |es|]; simpl in Hidx; try discriminate.
    - right. exists []. auto.
    - right. exists es. auto.
    - left. reflexivity. }
  { left. assert (read_index r1 = (Err CorruptIndex, r1)) as Hr.
    { unfold read_index. cbn [bind get]. now rewrite Hi1, Hu. }
    rewrite (bind_err _ _ _ _ _ Hr). cbn [fst snd].
    split; [congruence | discriminate]. }
  rewrite (bind_ok _ _ _ _ _ Hr).
  destruct (position (fun e => path_eqb (path e) p) es) as [pos|] eqn:Hpos.
  - destruct (nth_error es pos) as [e|] eqn:Hn.
    + destruct (bytes_eqb (sha1 e) sha) eqn:Hb; cbn [negb bind ret get put fst snd];
        right; do 3 eexists; (split; [reflexivity|]); (split; [exact Hes|]);
        (split; [|split; reflexivity]).
      * eapply staged_same; eauto.
      * eapply staged_replace; eauto.
    + cbn [bind panic fst snd]. left. split; [assumption | discriminate].
  - cbn [negb bind ret get put fst snd].
    right; do 3 eexists; (split; [reflexivity|]); (split; [exact Hes|]);
      (split; [|split; reflexivity]).
    apply staged_push; auto.
Qed.

(** ** The staging invariant *)

Lemma staged_inv : forall p sha es es',
  staged p sha es es' ->
  NoDup (map (fun e => components (path e)) es) ->
  Forall (fun e => mode e = 100644) es ->
  NoDup (map (fun e => components (path e)) es') /\
  Forall (fun e => mode e = 100644) es' /\
  exists x, In x es' /\ components (path x) = components p /\ sha1 x = sha.
Proof.
  intros p sha es es' Hs Hnd Hm.
  destruct Hs as [es pos e Hpos Hn Hb | es pos e Hpos Hn Hb | es Hpos].
  - destruct (position_some _ _ _ Hpos) as (e' & Hn' & He').
    rewrite Hn in Hn'. injection Hn' as <-.
    apply path_eqb_components in He'.
    split; [|split].
    + erewrite map_replace_at; eauto.
    + rewrite Forall_forall in *. intros x Hx.
      destruct (replace_at_incl _ _ _ _ Hx) as [->|Hx']; auto.
    + eexists. split; [eapply replace_at_in; eauto | simpl; auto].
  - destruct (position_some _ _ _ Hpos) as (e' & Hn' & He').
    rewrite Hn in Hn'. injection Hn' as <-.
    apply path_eqb_components in He'.
    split; [auto | split; [auto|]].
    exists e. split; [eapply nth_error_In; eauto | split; auto].
    now apply bytes_eqb_eq.
  - split; [|split].
    + rewrite map_app. simpl.
      apply Permutation_NoDup with (l := components p :: map (fun e => components (path e)) es).
      * apply Permutation_cons_append.
      * constructor; auto. intros Hin. apply in_map_iff in Hin as (e & He & Hin).
        pose proof (position_none _ _ Hpos e Hin) as Hf. simpl in Hf.
        rewrite (proj2 (path_eqb_components _ _) He) in Hf. discriminate.
    + apply Forall_app. split; auto.
    + eexists. split; [apply in_or_app; right; left; reflexivity | simpl; auto].
Qed.

Lemma sort_staged_inv : forall p sha es es',
  staged p sha es es' -> index_inv es ->
  index_inv (sort es') /\
  exists x, In x (sort es') /\ components (path x) = components p /\ sha1 x = sha.
Proof.
  intros p sha es es' Hs (_ & Hnd & Hm).
  destruct (staged_inv _ _ _ _ Hs Hnd Hm) as (Hnd' & Hm' & x & Hx & Hxp & Hxs).
  pose proof (sort_perm es') as Hp.
  split; [split; [|split] |].
  - apply sort_sorted.
  - eapply Permutation_NoDup; [|exact Hnd']. apply Permutation_map. now symmetry.
  - rewrite Forall_forall in *. intros y Hy. apply Hm'. eapply Permutation_in; eauto.
  - exists x. split; auto. eapply Permutation_in; [symmetry; exact Hp | exact Hx].
Qed.

Lemma index_inv_nil : index_inv [].
Proof. split; [constructor | split; constructor]. Qed.

Lemma reachable_index : forall H C r,
  reachable H C r ->
  index_file r = IndexEmpty \/ exists es, index_file r = IndexEncoded es /\ index_inv es.
Proof.
  intros H C r Hr. induction Hr as [dir objs | r p file Hr IH].
  - left. reflexivity.
  - destruct (add_to_index_effect H C p file r)
      as [[Hi _] | (data & es & es' & _ & Hes & Hs & Hi & _)].
    + now rewrite Hi.
    + right. exists (sort es'). split; auto.
      assert (index_inv es) as Hinv.
      { destruct Hes as [[_ ->] | Hes]; [apply index_inv_nil|].
        destruct IH as [IH | (es0 & IH & Hinv0)]; rewrite IH in Hes; try discriminate.
        now injection Hes as <-. }
      eapply sort_staged_inv; eauto.
Qed.

Lemma reachable_read_index : forall H C r es,
  reachable H C r -> fst (read_index r) = Ok es -> index_inv es.
Proof.
  intros H C r es Hr Hread.
  unfold read_index in Hread. cbn [bind get] in Hread.
  destruct (reachable_index H C r Hr) as [Hi | (es0 & Hi & Hinv)]; rewrite Hi in Hread;
    simpl in Hread; injection Hread as <-; auto using index_inv_nil.
Qed.

Lemma strongly_sorted_app : forall {A} (R : A -> A -> Prop) l1 a l2 b l3,
  StronglySorted R (l1 ++ a :: l2 ++ b :: l3) -> R a b.
Proof.
  intros A R l1. induction l1 as [|x l1 IH]; simpl; intros a l2 b l3 Hs.
  - apply StronglySorted_inv in Hs as [_ Hf]. rewrite Forall_forall in Hf.
    apply Hf, in_or_app. right. now left.
  - apply StronglySorted_inv in Hs as [Hs _]. eauto.
Qed.

Lemma add_to_index_success : forall H C p data r es,
  objects_is_dir r = true ->
  (index_file r = IndexEmpty /\ es = [] \/ index_file r = IndexEncoded es) ->
  exists es',
    staged p (hash (BlobObject_new H C data)) es es' /\
    fst (add_to_index H C p (Some data) r) = Ok tt /\
    index_file (snd (add_to_index H C p (Some data) r)) = IndexEncoded (sort es') /\
    objects_is_dir (snd (add_to_index H C p (Some data) r)) = true.
Proof.
  intros H C p data r es Hd Hes.
  assert (index_is_file (index_file r) = true) as Hidx
    by (destruct Hes as [[-> _] | ->]; reflexivity).
  unfold add_to_index. cbn [bind get]. rewrite Hidx. cbn [negb].
  destruct (write_object_blob H C (0%Z, 0%Z) data r Hd) as (r1 & Hw & Hi1 & Hd1).
  rewrite (bind_ok _ _ _ _ _ Hw). cbn [fst].
  set (sha := hash (BlobObject_new H C data)).
  assert (read_index r1 = (Ok es, r1)) as Hr.
  { unfold read_index. cbn [bind get]. rewrite Hi1.
    destruct Hes as [[-> ->] | ->]; reflexivity. }
  rewrite (bind_ok _ _ _ _ _ Hr).
  destruct (position (fun e => path_eqb (path e) p) es) as [pos|] eqn:Hpos.
  - destruct (position_some _ _ _ Hpos) as (e & Hn & _). rewrite Hn.
    destruct (bytes_eqb (sha1 e) sha) eqn:Hb; cbn [negb bind ret get put fst snd];
      eexists; (split; [|split; [reflexivity | split; [reflexivity | exact Hd1]]]).
    + eapply staged_same; eauto.
    + eapply staged_replace; eauto.
  - cbn [negb bind ret get put fst snd].
    eexists; (split; [|split; [reflexivity | split; [reflexivity | exact Hd1]]]).
    apply staged_push; auto.
Qed.

Lemma staged_existing : forall p sha es es',
  NoDup (map (fun e => components (path e)) es) ->
  (exists x, In x es /\ components (path x) = components p /\ sha1 x = sha) ->
  staged p sha es es' -> es' = es.
Proof.
  intros p sha es es' Hnd (x & Hx & Hxp & Hxs) Hs.
  destruct Hs as [es pos e Hpos Hn Hb | es pos e Hpos Hn Hb | es Hpos]; auto.
  - exfalso.
    destruct (position_some _ _ _ Hpos) as (e' & Hn' & He').
    rewrite Hn in Hn'. injection Hn' as <-.
    apply path_eqb_components in He'.
    assert (e = x) as ->.
    { eapply NoDup_map_inj_in; eauto using nth_error_In. congruence. }
    rewrite Hxs, bytes_eqb_refl in Hb. discriminate.
  - exfalso. pose proof (position_none _ _ Hpos x Hx) as Hf. simpl in Hf.
    rewrite (proj2 (path_eqb_components _ _) Hxp) in Hf. discriminate.
Qed.

Lemma reachable_stage_inv : forall H C r es,
  reachable H C r ->
  (index_file r = IndexEmpty /\ es = [] \/ index_file r = IndexEncoded es) ->
  index_inv es.
Proof.
  intros H C r es Hr Hes.
  destruct Hes as [[_ ->] | Hes]; [apply index_inv_nil|].
  destruct (reachable_index H C r Hr) as [IH | (es0 & IH & Hinv0)];
    rewrite IH in Hes; try discriminate.
  now injection Hes as <-.
Qed.

(** ** Claims on the staging index *)

(** C3: after any sequence of [add_to_index] calls from an empty index,
    the index lists its entries sorted by (mode, digest, path) — strongly
    sorted for [entry_le], the derived [Ord] of [IndexEntry] — and no two
    entries have paths that are equal as [Path]s (same components). *)
Theorem stage_index_sorted_unique : forall H C r es,
  reachable H C r ->
  fst (read_index r) = Ok es ->
  StronglySorted entry_le es /\ NoDup (map (fun e => components (path e)) es).
Proof.
  intros H C r es Hr Hread.
  destruct (reachable_read_index H C r es Hr Hread) as (Hs & Hnd & _).
  split; auto using sorted_strongly.
Qed.

Lemma stage_index_sorted_unique_witness :
  let r1 := snd (add_to_index sample_hash sample_compress (bytes "b.txt") (Some (bytes "1")) sample_repo) in
  let r2 := snd (add_to_index sample_hash sample_compress (bytes "a.txt") (Some (bytes "2")) r1) in
  let es := [mkIndexEntry 100644 (sample_hash (bytes "blob 1" ++ [x00] ++ bytes "1")) (bytes "b.txt");
             mkIndexEntry 100644 (sample_hash (bytes "blob 1" ++ [x00] ++ bytes "2")) (bytes "a.txt")] in
  reachable sample_hash sample_compress r2 /\ fst (read_index r2) = Ok es /\
  StronglySorted entry_le es /\ NoDup (map (fun e => components (path e)) es).
Proof.
  intros r1 r2 es.
  assert (reachable sample_hash sample_compress r2) as Hr.
  { apply reach_stage, reach_stage, reach_init. }
  assert (fst (read_index r2) = Ok es) as He by (vm_compute; reflexivity).
  split; [exact Hr | split; [exact He |]].
  apply (stage_index_sorted_unique sample_hash sample_compress r2 es Hr He).
Defined.

(** C7: staging the same path twice with unchanged content is idempotent:
    when the first call succeeds, the second leaves the index as it is
    (same entries, hence same count, digests and modes). *)
Theorem stage_twice_idempotent : forall H C r p data,
  reachable H C r ->
  fst (add_to_index H C p (Some data) r) = Ok tt ->
  let r1 := snd (add_to_index H C p (Some data) r) in
  index_file (snd (add_to_index H C p (Some data) r1)) = index_file r1.
Proof.
  intros H C r p data Hr Hok r1.
  destruct (add_to_index_effect H C p (Some data) r)
    as [[_ Hfail] | (d & es & es' & Hd & Hes & Hs & Hi & _)];
    [contradiction|].
  injection Hd as <-.
  pose proof (reachable_stage_inv H C r es Hr Hes) as Hinv.
  destruct (sort_staged_inv _ _ _ _ Hs Hinv) as (Hinv1 & Hx).
  fold r1 in Hi.
  destruct (add_to_index_effect H C p (Some data) r1)
    as [[Hi2 _] | (d & es2 & es2' & Hd & Hes2 & Hs2 & Hi2 & _)]; auto.
  injection Hd as <-.
  rewrite Hi in Hes2.
  destruct Hes2 as [[Habs _] | Hes2]; [discriminate|].
  injection Hes2 as <-.
  destruct Hinv1 as (Hsorted & Hnd & _).
  rewrite (staged_existing _ _ _ _ Hnd Hx Hs2) in Hi2.
  rewrite Hi2, Hi, (sort_of_sorted _ Hsorted). reflexivity.
Qed.

Lemma stage_twice_idempotent_witness :
  let r1 := snd (add_to_index sample_hash sample_compress (bytes "b.txt") (Some (bytes "1")) sample_repo) in
  reachable sample_hash sample_compress r1 /\
  fst (add_to_index sample_hash sample_compress (bytes "a.txt") (Some (bytes "2")) r1) = Ok tt /\
  let r2 := snd (add_to_index sample_hash sample_compress (bytes "a.txt") (Some (bytes "2")) r1) in
  index_file (snd (add_to_index sample_hash sample_compress (bytes "a.txt") (Some (bytes "2")) r2))
  = index_file r2.
Proof.
  intros r1.
  assert (reachable sample_hash sample_compress r1) as Hr.
  { apply reach_stage, reach_init. }
  assert (fst (add_to_index sample_hash sample_compress (bytes "a.txt") (Some (bytes "2")) r1) = Ok tt)
    as Hok by (vm_compute; reflexivity).
  split; [exact Hr | split; [exact Hok |]].
  apply (stage_twice_idempotent sample_hash sample_compress r1 (bytes "a.txt") (bytes "2") Hr Hok).
Defined.

(** C10: [add_to_index] only ever writes entries of mode [100644], so in an
    index reached by staging alone all modes are equal and the order of
    the entries is the order on (digest, path): digest first.  Staging
    [a.txt] and then [b.txt] lists [b.txt] first whenever its digest is
    the smaller one. *)
Theorem stage_mode_digest_order : forall H C,
  (forall r es,
     reachable H C r -> fst (read_index r) = Ok es ->
     Forall (fun e => mode e = 100644) es /\
     forall l1 e1 l2 e2 l3, es = l1 ++ e1 :: l2 ++ e2 :: l3 ->
       prod_cmp (lex_cmp byte_cmp) path_cmp (sha1 e1, path e1) (sha1 e2, path e2) <> Gt) /\
  (forall objs ca cb,
     lex_cmp byte_cmp (hash (BlobObject_new H C cb)) (hash (BlobObject_new H C ca)) = Lt ->
     let r1 := snd (add_to_index H C (bytes "a.txt") (Some ca) (mkRepo true IndexEmpty objs)) in
     let r2 := snd (add_to_index H C (bytes "b.txt") (Some cb) r1) in
     fst (read_index r2) =
       Ok [mkIndexEntry 100644 (hash (BlobObject_new H C cb)) (bytes "b.txt");
           mkIndexEntry 100644 (hash (BlobObject_new H C ca)) (bytes "a.txt")]).
Proof.
  intros H C. split.
  - intros r es Hr Hread.
    destruct (reachable_read_index H C r es Hr Hread) as (Hs & _ & Hm).
    split; auto.
    intros l1 e1 l2 e2 l3 Hes. subst es.
    pose proof (strongly_sorted_app _ _ _ _ _ _ (sorted_strongly _ Hs)) as Hle.
    rewrite Forall_forall in Hm.
    assert (mode e1 = 100644) as Hm1 by (apply Hm; apply in_or_app; right; left; reflexivity).
    assert (mode e2 = 100644) as Hm2
      by (apply Hm; apply in_or_app; right; right; apply in_or_app; right; left; reflexivity).
    unfold entry_le, entry_cmp in Hle. rewrite Hm1, Hm2 in Hle. exact Hle.
  - intros objs ca cb Hlt r1 r2.
    set (sa := hash (BlobObject_new H C ca)) in *.
    set (sb := hash (BlobObject_new H C cb)) in *.
    destruct (add_to_index_success H C (bytes "a.txt") ca (mkRepo true IndexEmpty objs) []
                eq_refl (or_introl (conj eq_refl eq_refl))) as (es1 & Hs1 & _ & Hi1 & Hd1).
    fold r1 in Hi1, Hd1.
    inversion Hs1 as [? ? ? Hp | ? ? ? Hp | ? Hp]; subst; try discriminate.
    cbn [sort insert_sorted app] in Hi1.
    destruct (add_to_index_success H C (bytes "b.txt") cb r1
                [mkIndexEntry 100644 sa (bytes "a.txt")] Hd1 (or_intror Hi1))
      as (es2 & Hs2 & _ & Hi2 & _).
    fold r2 in Hi2.
    inversion Hs2 as [? ? ? Hp2 | ? ? ? Hp2 | ? Hp2]; subst;
      try (vm_compute in Hp2; discriminate).
    unfold read_index. cbn [bind get]. rewrite Hi2.
    assert (entry_cmp (mkIndexEntry 100644 sa (bytes "a.txt"))
                      (mkIndexEntry 100644 sb (bytes "b.txt")) = Gt) as Hgt.
    { unfold entry_cmp; simpl. rewrite (lex_cmp_sym byte_cmp), Hlt. reflexivity. }
    fold sb. cbn [fst ret app sort insert_sorted]. rewrite Hgt. reflexivity.
Qed.

Lemma stage_mode_digest_order_witness :
  let r1 := snd (add_to_index sample_hash sample_compress (bytes "a.txt") (Some (bytes "2")) sample_repo) in
  let r2 := snd (add_to_index sample_hash sample_compress (bytes "b.txt") (Some (bytes "1")) r1) in
  fst (read_index r2) =
    Ok [mkIndexEntry 100644 (hash (BlobObject_new sample_hash sample_compress (bytes "1"))) (bytes "b.txt");
        mkIndexEntry 100644 (hash (BlobObject_new sample_hash sample_compress (bytes "2"))) (bytes "a.txt")].
Proof.
  apply (proj2 (stage_mode_digest_order sample_hash sample_compress) [] (bytes "2") (bytes "1")).
  vm_compute. reflexivity.
Defined.

(** ** Encoders *)

Lemma tree_entries_loop_app : forall raw es,
  tree_entries_loop raw es =
  raw ++ flat_map (fun e => dec_N (mode e) ++ [x20] ++ path e ++ [x00] ++ sha1 e) es.
Proof.
  intros raw es. revert raw. induction es as [|e es IH]; intros raw; simpl.
  - now rewrite app_nil_r.
  - rewrite IH. now rewrite <- !app_assoc.
Qed.

(** C1: the blob of content [c] is hashed (and compressed) over
    ["blob "], the decimal byte length of [c], one NUL byte, then [c]
    verbatim; for ["hello\n"] that is ["blob 6\0hello\n"]. *)
Theorem blob_canonical_layout : forall H C (c : list byte),
  hash (BlobObject_new H C c) = H (bytes "blob " ++ dec_nat (List.length c) ++ [x00] ++ c) /\
  compressed_content (BlobObject_new H C c) =
    C (bytes "blob " ++ dec_nat (List.length c) ++ [x00] ++ c) /\
  raw_content (BlobObject_new H C c) = c /\
  hash (BlobObject_new H C (bytes "hello" ++ [x0a])) =
    H (bytes "blob 6" ++ [x00] ++ bytes "hello" ++ [x0a]).
Proof.
  intros H C c. unfold BlobObject_new; simpl.
  split; [|split; [|split]]; try reflexivity.
  - now rewrite <- app_assoc.
  - now rewrite <- app_assoc.
Qed.

(** C2: a tree of [entries] is hashed over ["tree "], the decimal length
    of the body, one NUL byte, then the body: for each entry in the given
    order, its decimal mode, a space, its path bytes, a NUL byte and its
    20 digest bytes. *)
Theorem tree_canonical_layout : forall H C (entries : list IndexEntry),
  let body := flat_map (fun e => dec_N (mode e) ++ [x20] ++ path e ++ [x00] ++ sha1 e) entries in
  raw_content (TreeObject_new H C entries) = body /\
  hash (TreeObject_new H C entries) =
    H (bytes "tree " ++ dec_nat (List.length body) ++ [x00] ++ body) /\
  compressed_content (TreeObject_new H C entries) =
    C (bytes "tree " ++ dec_nat (List.length body) ++ [x00] ++ body).
Proof.
  intros H C entries body. unfold TreeObject_new.
  rewrite tree_entries_loop_app. simpl. fold body.
  split; [reflexivity|].
  now rewrite <- !app_assoc.
Qed.

(** ** Reading objects *)


Lemma position_byte_in : forall b l, In b l -> exists i, position (fun c => byte_eqb c b) l = Some i.
Proof.
  intros b l. induction l as [|c l IH]; simpl; intros Hin; [contradiction|].
  destruct (byte_eqb c b) eqn:E; eauto.
  destruct Hin as [<-|Hin]; [now rewrite byte_eqb_refl in E|].
  destruct (IH Hin) as [i ->]. exists (S i). reflexivity.
Qed.

Lemma position_byte_notin : forall b l, ~ In b l -> position (fun c => byte_eqb c b) l = None.
Proof.
  intros b l. induction l as [|c l IH]; simpl; intros Hnin; auto.
  destruct (byte_eqb c b) eqn:E.
  - apply Byte.byte_dec_bl in E. subst. exfalso. auto.
  - rewrite IH; auto.
Qed.

Lemma position_unwrap_ok : forall b buf i r,
  position (fun c => byte_eqb c b) buf = Some i -> position_unwrap b buf r = (Ok i, r).
Proof. intros b buf i r E. unfold position_unwrap. now rewrite E. Qed.

Lemma position_unwrap_panic : forall b buf r,
  ~ In b buf -> position_unwrap b buf r = (Panic, r).
Proof. intros b buf r E. unfold position_unwrap. now rewrite position_byte_notin. Qed.

Lemma ascii_char_boundary : forall s,
  Forall (fun b => Byte.to_N b < 128) s -> (2 <= List.length s)%nat -> is_char_boundary s 2 = true.
Proof.
  intros s Hs Hl. unfold is_char_boundary.
  destruct (nth_error s 2) as [b|] eqn:E.
  - apply nth_error_In in E. rewrite Forall_forall in Hs. specialize (Hs b E).
    destruct (128 <=? Byte.to_N b) eqn:E2; simpl; auto.
    apply N.leb_le in E2. lia.
  - apply Nat.eqb_eq. apply nth_error_None in E.
    destruct s as [|x [|y [|z s]]]; simpl in *; auto; lia.
Qed.
Lemma hex_pair_digits : forall b,
  is_ascii_hexdigit (hex_digit (Byte.to_N b / 16)) = true /\
  is_ascii_hexdigit (hex_digit (Byte.to_N b mod 16)) = true.
Proof. intros b. destruct b; split; reflexivity. Qed.

Lemma hex_encode_hexdigits : forall bs, forallb is_ascii_hexdigit (hex_encode bs) = true.
Proof.
  induction bs as [|b bs IH]; simpl; auto.
  destruct (hex_pair_digits b) as [-> ->]. exact IH.
Qed.

Lemma hexdigits_ascii : forall s, forallb is_ascii_hexdigit s = true -> Forall (fun b => Byte.to_N b < 128) s.
Proof.
  intros s Hs. rewrite forallb_forall in Hs. apply Forall_forall. intros b Hb.
  specialize (Hs b Hb). revert Hs. destruct b; (discriminate || (intros _; vm_compute; reflexivity)).
Qed.

Lemma hexdigit_name_ok : forall c, forallb is_ascii_hexdigit c = true -> name_ok c = true.
Proof.
  intros c Hc. unfold name_ok.
  assert (forallb (fun b => negb (byte_eqb b x2f) && negb (byte_eqb b x00)) c = true) as ->.
  { rewrite forallb_forall in Hc |- *. intros b Hb. specialize (Hc b Hb).
    revert Hc. destruct b; (discriminate || (intros _; reflexivity)). }
  destruct (bytes_eqb c [x2e]) eqn:E1; [apply bytes_eqb_eq in E1; subst; discriminate|].
  destruct (bytes_eqb c [x2e; x2e]) eqn:E2; [apply bytes_eqb_eq in E2; subst; discriminate|].
  reflexivity.
Qed.

Lemma hex_key_ok : forall s, forallb is_ascii_hexdigit s = true ->
  key_ok (firstn 2 s, skipn 2 s) = true.
Proof.
  intros s Hs. unfold key_ok. cbn [fst snd].
  rewrite <- (firstn_skipn 2 s) in Hs. rewrite forallb_app in Hs.
  apply andb_true_iff in Hs as [H1 H2].
  now rewrite (hexdigit_name_ok _ H1), (hexdigit_name_ok _ H2).
Qed.

Lemma obj_lookup_key_ok : forall k s v, obj_lookup k s = Some v -> key_ok k = true.
Proof. intros k s v. unfold obj_lookup. now destruct (key_ok k). Qed.

Lemma get_object_path_ok : forall F s r,
  List.length s = 40%nat -> is_char_boundary s 2 = true ->
  key_ok (firstn 2 s, skipn 2 s) = true ->
  get_object_path F s r = (Ok (StorePath (firstn 2 s, skipn 2 s)), r).
Proof.
  intros F s r Hl Hb Hk. unfold get_object_path.
  rewrite (proj2 (Nat.eqb_eq _ _) Hl), Hb. cbn zeta. now rewrite Hk.
Qed.

Lemma get_object_path_hex : forall F s r,
  List.length s = 40%nat -> forallb is_ascii_hexdigit s = true ->
  get_object_path F s r = (Ok (StorePath (firstn 2 s, skipn 2 s)), r).
Proof.
  intros F s r Hl Hx. apply get_object_path_ok; [exact Hl | | apply hex_key_ok, Hx].
  apply ascii_char_boundary; [apply hexdigits_ascii, Hx | lia].
Qed.


Lemma read_index_ok : forall r es,
  (index_file r = IndexEmpty /\ es = [] \/ index_file r = IndexEncoded es) ->
  read_index r = (Ok es, r).
Proof.
  intros r es Hes. unfold read_index. cbn [bind get].
  destruct Hes as [[-> ->] | ->]; reflexivity.
Qed.

(** Reading an object whose decompressed bytes start with ["tree "]. *)
Lemma read_object_tree : forall H C D F r addr comp rest es,
  objects_is_dir r = true ->
  List.length addr = 40%nat -> is_char_boundary addr 2 = true ->
  obj_lookup (firstn 2 addr, skipn 2 addr) (objects r) = Some comp ->
  D comp = Some (bytes "tree" ++ x20 :: rest) ->
  In x00 rest ->
  (index_file r = IndexEmpty /\ es = [] \/ index_file r = IndexEncoded es) ->
  read_object H C D F addr r = (Ok (Tree (TreeObject_new H C es)), r).
Proof.
  intros H C D F r addr comp rest es Hd Hl Hb Hlook HD Hnul Hes.
  unfold read_object. cbn [bind get]. rewrite Hd. cbn [negb].
  rewrite (bind_ok _ _ _ _ _ (get_object_path_ok F addr r Hl Hb (obj_lookup_key_ok _ _ _ Hlook))).
  cbn [bind get path_entry]. rewrite Hlook, HD.
  assert (In x00 (bytes "tree" ++ x20 :: rest)) as Hnul'
    by (apply in_or_app; right; right; exact Hnul).
  destruct (position_byte_in _ _ Hnul') as [j Hj].
  rewrite (bind_ok _ _ _ _ _ (position_unwrap_ok x20 (bytes "tree" ++ x20 :: rest) 4 r eq_refl)).
  rewrite (bind_ok _ _ _ _ _ (position_unwrap_ok x00 _ j r Hj)).
  cbn -[read_index TreeObject_new].
  now rewrite (bind_ok _ _ _ _ _ (read_index_ok r es Hes)).
Qed.

Lemma hex_digit_ascii : forall d, d < 16 -> Byte.to_N (hex_digit d) < 128.
Proof.
  intros d Hd. unfold hex_digit.
  destruct (Byte.of_N _) as [b|] eqn:E.
  - apply Byte.to_of_N in E. rewrite E. destruct (d <? 10); lia.
  - vm_compute. reflexivity.
Qed.

Lemma hex_encode_ascii : forall bs, Forall (fun b => Byte.to_N b < 128) (hex_encode bs).
Proof.
  intros bs. apply Forall_forall. intros b Hb.
  unfold hex_encode in Hb. apply in_flat_map in Hb as (x & _ & Hx).
  pose proof (Byte.to_N_bounded x) as Hx255.
  destruct Hx as [<- | [<- | []]]; apply hex_digit_ascii.
  - apply N.Div0.div_lt_upper_bound. lia.
  - apply N.mod_lt. discriminate.
Qed.

Lemma hex_encode_length : forall bs, List.length (hex_encode bs) = (2 * List.length bs)%nat.
Proof. induction bs; simpl; auto. rewrite IHbs. lia. Qed.

Lemma obj_lookup_write : forall k v s, key_ok k = true -> obj_lookup k (obj_write k v s) = Some v.
Proof.
  intros [k1 k2] v s Hk. unfold obj_lookup. rewrite Hk. unfold obj_write, key_eqb. simpl.
  now rewrite !bytes_eqb_refl.
Qed.

Lemma hex_encode_key_ok : forall h,
  key_ok (firstn 2 (hex_encode h), skipn 2 (hex_encode h)) = true.
Proof. intros h. apply hex_key_ok, hex_encode_hexdigits. Qed.

Lemma write_tree_ok : forall H C r es,
  objects_is_dir r = true ->
  (index_file r = IndexEmpty /\ es = [] \/ index_file r = IndexEncoded es) ->
  let t := TreeObject_new H C es in
  let hx := hex_encode (hash t) in
  write_tree H C r =
    (Ok (hash t, hx),
     set_objects (obj_write (firstn 2 hx, skipn 2 hx) (compressed_content t) (objects r)) r).
Proof.
  intros H C [dir idx objs] es Hd Hes t hx. simpl in Hd, Hes. subst dir.
  destruct Hes as [[-> ->] | ->]; reflexivity.
Qed.

(** C5: reading an object whose header tag is ["tree"] returns the tree
    built from the index at read time, whatever the stored payload; so
    after [write_tree] on index [es1] and an index change to [es2], the
    object stored at the returned address (the compressed layout of
    [es1]) reads back as the tree of [es2]. *)
Theorem read_tree_from_index : forall H C D F,
  (forall r addr comp rest es,
     objects_is_dir r = true ->
     List.length addr = 40%nat -> is_char_boundary addr 2 = true ->
     obj_lookup (firstn 2 addr, skipn 2 addr) (objects r) = Some comp ->
     D comp = Some (bytes "tree" ++ x20 :: rest) ->
     In x00 rest ->
     (index_file r = IndexEmpty /\ es = [] \/ index_file r = IndexEncoded es) ->
     read_object H C D F addr r = (Ok (Tree (TreeObject_new H C es)), r)) /\
  ((forall x, D (C x) = Some x) ->
   (forall x, List.length (H x) = 20%nat) ->
   forall r es1 es2,
     objects_is_dir r = true ->
     (index_file r = IndexEmpty /\ es1 = [] \/ index_file r = IndexEncoded es1) ->
     exists addr r1,
       write_tree H C r = (Ok (hash (TreeObject_new H C es1), addr), r1) /\
       obj_lookup (firstn 2 addr, skipn 2 addr) (objects r1) =
         Some (compressed_content (TreeObject_new H C es1)) /\
       read_object H C D F addr (set_index (IndexEncoded es2) r1) =
         (Ok (Tree (TreeObject_new H C es2)), set_index (IndexEncoded es2) r1)).
Proof.
  intros H C D F. split.
  - apply read_object_tree.
  - intros HDC HH r es1 es2 Hd Hes.
    set (t := TreeObject_new H C es1).
    set (hx := hex_encode (hash t)).
    exists hx, (set_objects (obj_write (firstn 2 hx, skipn 2 hx) (compressed_content t) (objects r)) r).
    split; [apply write_tree_ok; auto|].
    split; [apply obj_lookup_write, hex_encode_key_ok|].
    assert (List.length hx = 40%nat) as Hl.
    { unfold hx. rewrite hex_encode_length. unfold t, TreeObject_new. simpl. now rewrite HH. }
    apply (read_object_tree H C D F _ hx (compressed_content t)
             (dec_nat (List.length (raw_content t)) ++ [x00] ++ raw_content t)).
    + simpl. exact Hd.
    + exact Hl.
    + apply ascii_char_boundary; [apply hex_encode_ascii | lia].
    + apply obj_lookup_write, hex_encode_key_ok.
    + unfold t, TreeObject_new. simpl. rewrite HDC. now rewrite <- !app_assoc.
    + apply in_or_app. right. now left.
    + right. reflexivity.
Qed.

Lemma read_tree_from_index_witness :
  let stored := bytes "tree 12" ++ [x00] ++ bytes "100644 a" ++ [x00] ++ [x01; x02] in
  let addr := bytes "ab" ++ repeat x63 38 in
  let r := mkRepo true IndexEmpty [((bytes "ab", repeat x63 38), stored)] in
  objects_is_dir r = true /\ List.length addr = 40%nat /\ is_char_boundary addr 2 = true /\
  obj_lookup (firstn 2 addr, skipn 2 addr) (objects r) = Some stored /\
  sample_decompress stored = Some (bytes "tree" ++ x20 :: (bytes "12" ++ [x00] ++ bytes "100644 a" ++ [x00] ++ [x01; x02])) /\
  In x00 (bytes "12" ++ [x00] ++ bytes "100644 a" ++ [x00] ++ [x01; x02]) /\
  (index_file r = IndexEmpty /\ (@nil IndexEntry) = [] \/ index_file r = IndexEncoded []) /\
  read_object sample_hash sample_compress sample_decompress sample_host addr r =
    (Ok (Tree (TreeObject_new sample_hash sample_compress [])), r).
Proof.
  intros stored addr r.
  assert (objects_is_dir r = true) as H1 by reflexivity.
  assert (List.length addr = 40%nat) as H2 by reflexivity.
  assert (is_char_boundary addr 2 = true) as H3 by (vm_compute; reflexivity).
  assert (obj_lookup (firstn 2 addr, skipn 2 addr) (objects r) = Some stored) as H4
    by (vm_compute; reflexivity).
  assert (sample_decompress stored = Some (bytes "tree" ++ x20 :: (bytes "12" ++ [x00] ++ bytes "100644 a" ++ [x00] ++ [x01; x02]))) as H5
    by (vm_compute; reflexivity).
  assert (In x00 (bytes "12" ++ [x00] ++ bytes "100644 a" ++ [x00] ++ [x01; x02])) as H6
    by (simpl; auto 10).
  assert (index_file r = IndexEmpty /\ (@nil IndexEntry) = [] \/ index_file r = IndexEncoded []) as H7
    by (left; split; reflexivity).
  repeat (split; [assumption|]).
  exact (proj1 (read_tree_from_index sample_hash sample_compress sample_decompress sample_host)
           r addr stored _ [] H1 H2 H3 H4 H5 H6 H7).
Defined.

(** ** Addresses *)

(** C6 (counterexample): [read_object] does not check hexadecimal digits:
    forty ['g'] characters, with no object file, give "object does not
    exist" and not an invalid-address error. *)
Lemma read_object_non_hex_not_invalid :
  let addr := repeat x67 40 in
  forallb is_ascii_hexdigit addr = false /\
  read_object sample_hash sample_compress sample_decompress sample_host addr sample_repo =
    (Err ObjectDoesNotExist, sample_repo).
Proof. split; vm_compute; reflexivity. Qed.

Lemma key_ok_sep : forall a b, starts_with_sep b = true -> key_ok (a, b) = false.
Proof.
  intros a [|c b] Hs; [discriminate|]. simpl in Hs. unfold key_ok, name_ok. cbn [fst snd forallb].
  rewrite Hs. now rewrite andb_false_r.
Qed.

(** C6 (amended): in an initialized repository [read_object] fails with
    "Invalid hash length" exactly when the address is not 40 bytes long.
    A 40-hex-digit address, and more generally a 40-character ASCII
    address whose first 2 and last 38 characters are each a file name,
    with no object file at [objects/<first 2>/<last 38>] fails with
    "object does not exist".  When the last 38 characters start with
    ['/'], [Path::join] replaces the path by them: the object file is not
    looked up under [objects/] at all, and a directory there makes the
    read fail with "Failed to read object file". *)
Theorem read_object_address_errors : forall H C D F r addr,
  objects_is_dir r = true ->
  (List.length addr <> 40%nat ->
     read_object H C D F addr r = (Err InvalidHashLength, r)) /\
  (List.length addr = 40%nat -> forallb is_ascii_hexdigit addr = true ->
   obj_lookup (firstn 2 addr, skipn 2 addr) (objects r) = None ->
     read_object H C D F addr r = (Err ObjectDoesNotExist, r)) /\
  (List.length addr = 40%nat ->
   Forall (fun b => Byte.to_N b < 128) addr ->
   key_ok (firstn 2 addr, skipn 2 addr) = true ->
   obj_lookup (firstn 2 addr, skipn 2 addr) (objects r) = None ->
     read_object H C D F addr r = (Err ObjectDoesNotExist, r)) /\
  (List.length addr = 40%nat ->
   Forall (fun b => Byte.to_N b < 128) addr ->
   starts_with_sep (skipn 2 addr) = true -> ~ In x00 addr ->
   host_entry F (skipn 2 addr) = DirEntry ->
     read_object H C D F addr r = (Err FailedToReadObject, r)).
Proof.
  intros H C D F r addr Hd.
  assert (forall k, key_ok (firstn 2 addr, skipn 2 addr) = true ->
            List.length addr = 40%nat -> Forall (fun b => Byte.to_N b < 128) addr ->
            obj_lookup (firstn 2 addr, skipn 2 addr) (objects r) = None ->
            k = tt -> read_object H C D F addr r = (Err ObjectDoesNotExist, r)) as Hmiss.
  { intros k Hk Hl Ha Hlook _. unfold read_object. cbn [bind get]. rewrite Hd. cbn [negb].
    rewrite (bind_ok _ _ _ _ _ (get_object_path_ok F addr r Hl (ascii_char_boundary addr Ha ltac:(lia)) Hk)).
    cbn [bind get path_entry]. now rewrite Hlook. }
  split; [|split; [|split]].
  - intros Hl. unfold read_object. cbn [bind get]. rewrite Hd. cbn [negb].
    unfold get_object_path. apply Nat.eqb_neq in Hl. rewrite Hl. reflexivity.
  - intros Hl Hx Hlook. apply (Hmiss tt); auto using hex_key_ok, hexdigits_ascii.
  - intros Hl Ha Hk Hlook. apply (Hmiss tt); auto.
  - intros Hl Ha Hs Hnul Hdir. unfold read_object. cbn [bind get]. rewrite Hd. cbn [negb].
    unfold get_object_path.
    rewrite (proj2 (Nat.eqb_eq _ _) Hl), (ascii_char_boundary addr Ha ltac:(lia)).
    cbn [negb]. cbn zeta. rewrite (key_ok_sep _ _ Hs).
    unfold path_join at 1. rewrite Hs.
    cbn [bind get ret path_entry].
    assert (existsb (fun b => byte_eqb b x00) (skipn 2 addr) = false) as ->.
    { apply not_true_is_false. intros Hex. apply existsb_exists in Hex as (b & Hb & Eb).
      apply Byte.byte_dec_bl in Eb. subst b. apply Hnul.
      rewrite <- (firstn_skipn 2 addr). apply in_or_app. now right. }
    now rewrite Hdir.
Qed.

Lemma read_object_address_errors_witness :
  let short := bytes "abc" in
  let hex := repeat x61 40 in
  let named := bytes "zz" ++ repeat x71 38 in
  let rooted := bytes "ab" ++ repeat x2f 38 in
  objects_is_dir sample_repo = true /\
  read_object sample_hash sample_compress sample_decompress sample_host short sample_repo =
    (Err InvalidHashLength, sample_repo) /\
  read_object sample_hash sample_compress sample_decompress sample_host hex sample_repo =
    (Err ObjectDoesNotExist, sample_repo) /\
  read_object sample_hash sample_compress sample_decompress sample_host named sample_repo =
    (Err ObjectDoesNotExist, sample_repo) /\
  read_object sample_hash sample_compress sample_decompress sample_root_host rooted sample_repo =
    (Err FailedToReadObject, sample_repo).
Proof.
  intros short hex named rooted.
  assert (objects_is_dir sample_repo = true) as Hd by reflexivity.
  split; [exact Hd|].
  destruct (read_object_address_errors sample_hash sample_compress sample_decompress
              sample_host sample_repo short Hd) as (P1 & _).
  destruct (read_object_address_errors sample_hash sample_compress sample_decompress
              sample_host sample_repo hex Hd) as (_ & P2 & _).
  destruct (read_object_address_errors sample_hash sample_compress sample_decompress
              sample_host sample_repo named Hd) as (_ & _ & P3 & _).
  destruct (read_object_address_errors sample_hash sample_compress sample_decompress
              sample_root_host sample_repo rooted Hd) as (_ & _ & _ & P4).
  split; [apply P1; discriminate|].
  split; [apply P2; reflexivity|].
  split; [apply P3; [reflexivity | vm_compute; repeat constructor | reflexivity | reflexivity]|].
  apply P4; [reflexivity | vm_compute; repeat constructor | reflexivity | | reflexivity].
  vm_compute. intros Hin. repeat (destruct Hin as [Hin|Hin]; [discriminate|]). exact Hin.
Defined.

(** C8: [commit_tree] on a 40-hex-digit tree address with no object file
    fails with "Tree hash not a valid object"; with an existing tree and a
    parent digest that has no object file it fails with "Parent hash not a
    valid object".  Both are the spec's [InvalidReference], both are raised
    before anything is written: the repository is returned unchanged. *)
Theorem commit_tree_unresolved_reference : forall H C F now r message tree_hash parent_hash,
  objects_is_dir r = true ->
  List.length tree_hash = 40%nat -> forallb is_ascii_hexdigit tree_hash = true ->
  (obj_lookup (firstn 2 tree_hash, skipn 2 tree_hash) (objects r) = None ->
     commit_tree H C F now message tree_hash parent_hash r = (Err TreeHashNotValidObject, r)) /\
  (forall p, parent_hash = Some p -> List.length p = 20%nat ->
     obj_lookup (firstn 2 tree_hash, skipn 2 tree_hash) (objects r) <> None ->
     obj_lookup (firstn 2 (hex_encode p), skipn 2 (hex_encode p)) (objects r) = None ->
     commit_tree H C F now message tree_hash parent_hash r = (Err ParentHashNotValidObject, r)).
Proof.
  intros H C F now r message tree_hash parent_hash Hd Hl Hhex.
  pose proof (get_object_path_hex F tree_hash r Hl Hhex) as Hgp.
  unfold commit_tree. cbn [bind get]. rewrite Hd. cbn [negb].
  rewrite (bind_ok _ _ _ _ _ Hgp).
  split.
  - intros Hlook. unfold object_exists. cbn [bind get ret path_entry]. now rewrite Hlook.
  - intros p -> Hp Hlook Hplook.
    destruct (obj_lookup (firstn 2 tree_hash, skipn 2 tree_hash) (objects r)) eqn:E;
      [|contradiction].
    unfold object_exists. cbn [bind get ret path_entry]. rewrite E. cbn [negb].
    assert (List.length (hex_encode p) = 40%nat) as Hlp by (rewrite hex_encode_length; lia).
    pose proof (get_object_path_hex F (hex_encode p) r Hlp (hex_encode_hexdigits p)) as Hgp2.
    unfold bind at 1. rewrite (bind_ok _ _ _ _ _ Hgp2). unfold bind, get, ret, fail.
    cbv beta iota. cbn [path_entry]. now rewrite Hplook.
Qed.

Lemma commit_tree_unresolved_reference_witness :
  let tree := repeat x61 40 in
  objects_is_dir sample_repo = true /\ List.length tree = 40%nat /\
  forallb is_ascii_hexdigit tree = true /\
  commit_tree sample_hash sample_compress sample_host (0%Z, 0%Z) (bytes "msg") tree None sample_repo =
    (Err TreeHashNotValidObject, sample_repo).
Proof.
  intros tree.
  assert (objects_is_dir sample_repo = true) as H1 by reflexivity.
  assert (List.length tree = 40%nat) as H2 by reflexivity.
  assert (forallb is_ascii_hexdigit tree = true) as H3 by (vm_compute; reflexivity).
  split; [exact H1 | split; [exact H2 | split; [exact H3 |]]].
  apply (proj1 (commit_tree_unresolved_reference sample_hash sample_compress sample_host (0%Z, 0%Z)
                  sample_repo (bytes "msg") tree None H1 H2 H3)).
  reflexivity.
Defined.

(** ** Parsing stored objects *)

Lemma position_app_first : forall b tag rest,
  ~ In b tag -> position (fun c => byte_eqb c b) (tag ++ b :: rest) = Some (List.length tag).
Proof.
  intros b tag rest. induction tag as [|c tag IH]; simpl; intros Hnin.
  - now rewrite byte_eqb_refl.
  - destruct (byte_eqb c b) eqn:E.
    + apply Byte.byte_dec_bl in E. subst. exfalso. auto.
    + rewrite IH; auto.
Qed.

Lemma scan_until_app : forall b pre post,
  ~ In b pre -> scan_until b (pre ++ b :: post) = Some (pre, post).
Proof.
  intros b pre post. induction pre as [|c pre IH]; simpl; intros Hnin.
  - now rewrite byte_eqb_refl.
  - destruct (byte_eqb c b) eqn:E.
    + apply Byte.byte_dec_bl in E. subst. exfalso. auto.
    + rewrite IH; auto.
Qed.

Lemma bytes_eqb_neq : forall xs ys, xs <> ys -> bytes_eqb xs ys = false.
Proof.
  intros xs ys Hne. destruct (bytes_eqb xs ys) eqn:E; auto.
  apply bytes_eqb_eq in E. contradiction.
Qed.

(** C4 (counterexample): a stored buffer without a space byte makes
    [read_object] panic (the [unwrap] of [position]), and a stored
    ["tree"] whose entry digest is cut short (2 of 20 bytes) reads back
    without any error. *)
Lemma read_object_panic_and_truncated_tree :
  let addr := bytes "ab" ++ repeat x63 38 in
  let r1 := mkRepo true IndexEmpty [((bytes "ab", repeat x63 38), bytes "hello")] in
  let truncated := bytes "tree 11" ++ [x00] ++ bytes "100644 a" ++ [x00] ++ [x01; x02] in
  let r2 := mkRepo true IndexEmpty [((bytes "ab", repeat x63 38), truncated)] in
  read_object sample_hash sample_compress sample_decompress sample_host addr r1 = (Panic, r1) /\
  read_object sample_hash sample_compress sample_decompress sample_host addr r2 =
    (Ok (Tree (TreeObject_new sample_hash sample_compress [])), r2).
Proof. split; vm_compute; reflexivity. Qed.

Lemma position_unwrap_panic' : forall b buf r,
  ~ In b buf -> position_unwrap b buf r = (Panic, r).
Proof. intros b buf r Hb. unfold position_unwrap. now rewrite position_byte_notin. Qed.

(** Steps [read_object] past the lookup of an object file stored under a
    file-name key. *)
Ltac read_stored F addr r Hd Hl Hb Hlook :=
  unfold read_object; cbn [bind get]; rewrite Hd; cbn [negb];
  rewrite (bind_ok _ _ _ _ _ (get_object_path_ok F addr r Hl Hb (obj_lookup_key_ok _ _ _ Hlook)));
  cbn [bind get path_entry]; rewrite Hlook.

Lemma walk_whole_entry : forall f m p h rest,
  whole_entry (m, p, h) ->
  walk_tree_aux (S f) (raw_tree_entry (m, p, h) ++ rest) =
    match walk_tree_aux f rest with
    | Ok lines => Ok ((m, hex_encode h, p) :: lines)
    | o => o
    end.
Proof.
  intros f m p h rest (Hm & Hp & Hvm & Hvp & Hh).
  assert (raw_tree_entry (m, p, h) ++ rest = m ++ x20 :: p ++ x00 :: h ++ rest) as ->
    by (unfold raw_tree_entry; rewrite <- app_assoc; cbn [app]; now rewrite <- app_assoc).
  destruct (m ++ x20 :: p ++ x00 :: h ++ rest) as [|x xs] eqn:E.
  - exfalso. eapply app_cons_not_nil. symmetry. exact E.
  - cbn [walk_tree_aux]. rewrite <- E.
    rewrite (scan_until_app _ _ _ Hm), Hvm. cbn [negb].
    rewrite (scan_until_app _ _ _ Hp), Hvp. cbn [negb].
    assert (Nat.ltb (List.length (h ++ rest)) 20 = false) as ->
      by (apply Nat.ltb_ge; rewrite length_app; lia).
    rewrite <- Hh, firstn_app, skipn_app, Nat.sub_diag, firstn_all, skipn_all,
      firstn_O, skipn_O, app_nil_r.
    reflexivity.
Qed.

Lemma walk_truncated_entry : forall g m p d,
  ~ In x20 m -> ~ In x00 p -> utf8_valid m = true -> utf8_valid p = true ->
  (List.length d < 20)%nat ->
  walk_tree_aux (S g) (m ++ x20 :: p ++ x00 :: d) = Err ShaTruncated.
Proof.
  intros g m p d Hm Hp Hvm Hvp Hd.
  destruct (m ++ x20 :: p ++ x00 :: d) as [|x xs] eqn:E.
  - exfalso. eapply app_cons_not_nil. symmetry. exact E.
  - cbn [walk_tree_aux]. rewrite <- E.
    rewrite (scan_until_app _ _ _ Hm), Hvm. cbn [negb].
    rewrite (scan_until_app _ _ _ Hp), Hvp. cbn [negb].
    apply Nat.ltb_lt in Hd. now rewrite Hd.
Qed.

Lemma walk_whole_then_truncated : forall es g tail,
  Forall whole_entry es ->
  (forall g', walk_tree_aux (S g') tail = Err ShaTruncated) ->
  walk_tree_aux (List.length es + S g) (flat_map raw_tree_entry es ++ tail) = Err ShaTruncated.
Proof.
  induction es as [|[[m p] h] es IH]; intros g tail Hes Ht; [apply Ht|].
  inversion Hes as [|? ? He Hes']; subst.
  cbn [List.length flat_map Nat.add]. rewrite <- app_assoc.
  rewrite (walk_whole_entry _ _ _ _ _ He). now rewrite (IH g tail Hes' Ht).
Qed.

Lemma raw_entries_length : forall es,
  (List.length es <= List.length (flat_map raw_tree_entry es))%nat.
Proof.
  induction es as [|[[m p] h] es IH]; [simpl; lia|].
  cbn [flat_map List.length raw_tree_entry]. rewrite !length_app. simpl. lia.
Qed.

(** C4 (amended): (1) a decompressed buffer with no space byte, or with
    no NUL byte, makes [read_object] panic; (2) a buffer with both whose
    type tag (the bytes before the first space) is not ["blob"],
    ["tree"] or ["commit"] makes it fail with "Object type ... not yet
    implemented", or with the UTF-8 error when the tag is not UTF-8;
    (3) for the tag ["tree"] the stored body is not parsed at all: the
    result is the tree of the current index; (4) the entry walk of
    [cat-file -p] fails with "SHA-1 truncated", not a panic, when after
    any number of whole entries the 20-byte digest of the next entry
    would run past the end of the bytes. *)
Theorem read_object_parse_errors : forall H C D F,
  (forall r addr comp buf,
     objects_is_dir r = true ->
     List.length addr = 40%nat -> is_char_boundary addr 2 = true ->
     obj_lookup (firstn 2 addr, skipn 2 addr) (objects r) = Some comp ->
     D comp = Some buf ->
     ~ In x20 buf \/ ~ In x00 buf ->
     read_object H C D F addr r = (Panic, r)) /\
  (forall r addr comp tag rest,
     objects_is_dir r = true ->
     List.length addr = 40%nat -> is_char_boundary addr 2 = true ->
     obj_lookup (firstn 2 addr, skipn 2 addr) (objects r) = Some comp ->
     D comp = Some (tag ++ x20 :: rest) ->
     ~ In x20 tag -> In x00 (tag ++ x20 :: rest) ->
     tag <> bytes "blob" -> tag <> bytes "tree" -> tag <> bytes "commit" ->
     read_object H C D F addr r =
       (Err (if utf8_valid tag then ObjectTypeNotImplemented else Utf8Error), r)) /\
  (forall r addr comp rest es,
     objects_is_dir r = true ->
     List.length addr = 40%nat -> is_char_boundary addr 2 = true ->
     obj_lookup (firstn 2 addr, skipn 2 addr) (objects r) = Some comp ->
     D comp = Some (bytes "tree" ++ x20 :: rest) ->
     In x00 rest ->
     (index_file r = IndexEmpty /\ es = [] \/ index_file r = IndexEncoded es) ->
     read_object H C D F addr r = (Ok (Tree (TreeObject_new H C es)), r)) /\
  (forall es m p d,
     Forall whole_entry es ->
     ~ In x20 m -> ~ In x00 p -> utf8_valid m = true -> utf8_valid p = true ->
     (List.length d < 20)%nat ->
     walk_tree (flat_map raw_tree_entry es ++ m ++ x20 :: p ++ x00 :: d) = Err ShaTruncated).
Proof.
  intros H C D F. split; [|split; [|split]].
  - intros r addr comp buf Hd Hl Hb Hlook HD Hmiss.
    read_stored F addr r Hd Hl Hb Hlook. rewrite HD.
    destruct (in_dec Byte.byte_eq_dec x20 buf) as [Hsp|Hsp].
    + destruct Hmiss as [Hmiss|Hmiss]; [contradiction|].
      destruct (position_byte_in _ _ Hsp) as [i Hi].
      rewrite (bind_ok _ _ _ _ _ (position_unwrap_ok x20 _ _ r Hi)).
      unfold bind. now rewrite (position_unwrap_panic' _ _ r Hmiss).
    + unfold bind. now rewrite (position_unwrap_panic' _ _ r Hsp).
  - intros r addr comp tag rest Hd Hl Hb Hlook HD Hsp Hnul Hblob Htree Hcommit.
    read_stored F addr r Hd Hl Hb Hlook. rewrite HD.
    destruct (position_byte_in _ _ Hnul) as [j Hj].
    rewrite (bind_ok _ _ _ _ _ (position_unwrap_ok x20 _ _ r (position_app_first _ _ rest Hsp))).
    rewrite (bind_ok _ _ _ _ _ (position_unwrap_ok x00 _ j r Hj)).
    rewrite firstn_app, Nat.sub_diag, firstn_all. simpl firstn. rewrite app_nil_r.
    destruct (utf8_valid tag); cbn [negb].
    + rewrite (bytes_eqb_neq _ _ Hblob), (bytes_eqb_neq _ _ Htree), (bytes_eqb_neq _ _ Hcommit).
      reflexivity.
    + reflexivity.
  - apply read_object_tree.
  - intros es m p d Hes Hm Hp Hvm Hvp Hd.
    unfold walk_tree.
    set (raw := flat_map raw_tree_entry es ++ m ++ x20 :: p ++ x00 :: d).
    assert (exists g, List.length raw = (List.length es + S g)%nat) as [g ->].
    { exists (List.length raw - List.length es - 1)%nat.
      pose proof (raw_entries_length es). unfold raw. rewrite !length_app. simpl. lia. }
    apply walk_whole_then_truncated; [exact Hes|].
    intros g'. now apply walk_truncated_entry.
Qed.

Lemma read_object_parse_errors_witness :
  let key := (bytes "ab", repeat x63 38) in
  let addr := bytes "ab" ++ repeat x63 38 in
  let r1 := mkRepo true IndexEmpty [(key, bytes "hello")] in
  let r2 := mkRepo true IndexEmpty [(key, bytes "bad 3" ++ [x00] ++ bytes "xyz")] in
  let r3 := mkRepo true IndexEmpty [(key, bytes "tree 0" ++ [x00])] in
  let whole := (bytes "100644", bytes "a", repeat x01 20) in
  read_object sample_hash sample_compress sample_decompress sample_host addr r1 = (Panic, r1) /\
  read_object sample_hash sample_compress sample_decompress sample_host addr r2 =
    (Err ObjectTypeNotImplemented, r2) /\
  read_object sample_hash sample_compress sample_decompress sample_host addr r3 =
    (Ok (Tree (TreeObject_new sample_hash sample_compress [])), r3) /\
  walk_tree (flat_map raw_tree_entry [whole] ++ bytes "100644" ++ x20 :: bytes "b" ++ x00 :: [x01; x02]) =
    Err ShaTruncated.
Proof.
  intros key addr r1 r2 r3 whole.
  destruct (read_object_parse_errors sample_hash sample_compress sample_decompress sample_host)
    as (P1 & P2 & P3 & P4).
  assert (List.length addr = 40%nat) as Hl by reflexivity.
  assert (is_char_boundary addr 2 = true) as Hb by (vm_compute; reflexivity).
  split; [|split; [|split]].
  - apply (P1 r1 addr (bytes "hello") (bytes "hello")); try reflexivity.
    left. simpl. intuition discriminate.
  - apply (P2 r2 addr (bytes "bad 3" ++ [x00] ++ bytes "xyz") (bytes "bad") (bytes "3" ++ [x00] ++ bytes "xyz")); try reflexivity.
    + simpl. intuition discriminate.
    + simpl. auto 10.
    + discriminate.
    + discriminate.
    + discriminate.
  - apply (P3 r3 addr (bytes "tree 0" ++ [x00]) (bytes "0" ++ [x00]) []); try reflexivity.
    + simpl. auto.
    + left. split; reflexivity.
  - apply P4.
    + constructor; [|constructor].
      split; [simpl; intuition discriminate|].
      split; [simpl; intuition discriminate|].
      split; [reflexivity|]. split; reflexivity.
    + simpl. intuition discriminate.
    + simpl. intuition discriminate.
    + reflexivity.
    + reflexivity.
    + simpl. lia.
Defined.

(** * Further properties of the commands *)


(** ** Decimal digits *)

Lemma digit_byte_digit : forall d, d < 10 -> is_digit (digit_byte d).
Proof.
  intros d Hd. unfold is_digit, digit_byte.
  destruct (Byte.of_N (48 + d)) as [b|] eqn:E.
  - apply Byte.to_of_N in E. lia.
  - exfalso. assert (48 + d <= 255) as Hle by lia.
    destruct (Byte.of_N_None_iff (48 + d)) as [Hn _]. specialize (Hn E). lia.
Qed.

Lemma dec_aux_digits : forall fuel n acc,
  Forall is_digit acc -> Forall is_digit (dec_aux fuel n acc).
Proof.
  induction fuel as [|f IH]; intros n acc Hacc; simpl; auto.
  assert (Forall is_digit (digit_byte (n mod 10) :: acc)) as Hc.
  { constructor; auto. apply digit_byte_digit. apply N.mod_lt. discriminate. }
  destruct (n <? 10); auto.
Qed.

Lemma dec_N_digits : forall n, Forall is_digit (dec_N n).
Proof. intros n. apply dec_aux_digits. constructor. Qed.

Lemma digits_no_byte : forall b l, ~ is_digit b -> Forall is_digit l -> ~ In b l.
Proof.
  intros b l Hb Hl Hin. rewrite Forall_forall in Hl. exact (Hb (Hl b Hin)).
Qed.

Lemma dec_N_no_space : forall n, ~ In x20 (dec_N n).
Proof. intros n. apply digits_no_byte; [unfold is_digit; simpl; lia | apply dec_N_digits]. Qed.

Lemma dec_N_no_nul : forall n, ~ In x00 (dec_N n).
Proof. intros n. apply digits_no_byte; [unfold is_digit; simpl; lia | apply dec_N_digits]. Qed.

(** ** UTF-8 *)

Lemma utf8_valid_aux_ascii : forall f s,
  (List.length s <= f)%nat -> Forall (fun b => Byte.to_N b < 128) s -> utf8_valid_aux f s = true.
Proof.
  induction f as [|f IH]; intros s Hl Hs; destruct s as [|b s]; simpl in *; auto; try lia.
  inversion Hs as [|? ? Hb Hs']; subst.
  unfold in_range. replace (0 <=? Byte.to_N b) with true by (symmetry; apply N.leb_le; lia).
  replace (Byte.to_N b <=? 127) with true by (symmetry; apply N.leb_le; lia).
  simpl. apply IH; auto. lia.
Qed.

Lemma utf8_valid_ascii : forall s, Forall (fun b => Byte.to_N b < 128) s -> utf8_valid s = true.
Proof. intros s Hs. apply utf8_valid_aux_ascii; auto. Qed.

Lemma dec_N_utf8 : forall n, utf8_valid (dec_N n) = true.
Proof.
  intros n. apply utf8_valid_ascii. eapply Forall_impl; [|apply dec_N_digits].
  unfold is_digit. intros b Hb. lia.
Qed.

(** ** The object store *)

Lemma bytes_eqb_iff : forall xs ys, bytes_eqb xs ys = true <-> xs = ys.
Proof.
  intros xs ys. split; [apply bytes_eqb_eq | intros ->; apply bytes_eqb_refl].
Qed.

Lemma key_eqb_iff : forall k l, key_eqb k l = true <-> k = l.
Proof.
  intros [k1 k2] [l1 l2]. unfold key_eqb. simpl.
  rewrite andb_true_iff, !bytes_eqb_iff. split; [intros [-> ->] | intros E; injection E]; auto.
Qed.

Lemma key_eqb_sym : forall k l, key_eqb k l = key_eqb l k.
Proof.
  intros k l. destruct (key_eqb k l) eqn:E; destruct (key_eqb l k) eqn:F; auto.
  - apply key_eqb_iff in E. subst. rewrite (proj2 (key_eqb_iff l l) eq_refl) in F. discriminate.
  - apply key_eqb_iff in F. subst. rewrite (proj2 (key_eqb_iff k k) eq_refl) in E. discriminate.
Qed.

Lemma find_filter_other : forall {A} (f g : A -> bool) l,
  (forall x, f x = true -> g x = true) -> find f (filter g l) = find f l.
Proof.
  intros A f g l Hfg. induction l as [|x l IH]; simpl; auto.
  destruct (g x) eqn:Eg; simpl.
  - destruct (f x); auto.
  - destruct (f x) eqn:Ef; auto. rewrite (Hfg x Ef) in Eg. discriminate.
Qed.

(** [fs::write] then reading any object file. *)
Lemma obj_lookup_obj_write : forall k k' v s,
  obj_lookup k' (obj_write k v s) =
    if key_eqb k' k then (if key_ok k' then Some v else None) else obj_lookup k' s.
Proof.
  intros k k' v s. unfold obj_lookup, obj_write. simpl.
  rewrite (key_eqb_sym k' k). destruct (key_eqb k k') eqn:E; simpl; auto.
  destruct (key_ok k'); auto.
  rewrite find_filter_other; auto.
  intros [kk vv] Hk. simpl in *. apply key_eqb_iff in Hk. subst.
  now rewrite key_eqb_sym, E.
Qed.

Lemma filter_idem : forall {A} (g : A -> bool) l, filter g (filter g l) = filter g l.
Proof.
  intros A g l. induction l as [|x l IH]; simpl; auto.
  destruct (g x) eqn:E; simpl; [rewrite E|]; congruence.
Qed.

Lemma obj_write_twice : forall k v s, obj_write k v (obj_write k v s) = obj_write k v s.
Proof.
  intros k v s. unfold obj_write. simpl.
  rewrite (proj2 (key_eqb_iff k k) eq_refl). simpl. now rewrite filter_idem.
Qed.

(** What a successful [write_object] did. *)
Lemma write_object_ok : forall H C now args r h hex r',
  write_object H C now args r = (Ok (h, hex), r') ->
  exists o,
    objects_is_dir r = true /\ h = hash o /\ hex = hex_encode (hash o) /\
    r' = set_objects (obj_write (firstn 2 hex, skipn 2 hex) (compressed_content o) (objects r)) r /\
    match args with
    | BlobArgs d => o = BlobObject_new H C d
    | TreeArgs => exists es, read_index r = (Ok es, r) /\ o = TreeObject_new H C es
    | CommitArgs m t p => o = CommitObject_new H C m t p (fst now) (snd now)
    end.
Proof.
  intros H C now args [dir idx objs] h hex r' Hw.
  destruct dir; [|discriminate].
  destruct args as [d | | m t p].
  - simpl in Hw. injection Hw as <- <- <-. exists (BlobObject_new H C d).
    refine (conj eq_refl (conj eq_refl (conj eq_refl (conj eq_refl eq_refl)))).
  - destruct idx as [| |es|]; simpl in Hw; try discriminate; injection Hw as <- <- <-.
    + exists (TreeObject_new H C []).
      refine (conj eq_refl (conj eq_refl (conj eq_refl (conj eq_refl _)))).
      exists []. split; reflexivity.
    + exists (TreeObject_new H C es).
      refine (conj eq_refl (conj eq_refl (conj eq_refl (conj eq_refl _)))).
      exists es. split; reflexivity.
  - simpl in Hw. injection Hw as <- <- <-.
    exists (CommitObject_new H C m t p (fst now) (snd now)).
    refine (conj eq_refl (conj eq_refl (conj eq_refl (conj eq_refl eq_refl)))).
Qed.

(** X2: writing the same object a second time succeeds with the same
    digest and address and leaves the repository as the first write left it. *)
Theorem write_object_twice_ok : forall H C now args r x r',
  write_object H C now args r = (Ok x, r') -> write_object H C now args r' = (Ok x, r').
Proof.
  intros H C now args r [h hex] r' Hw.
  pose proof Hw as Hw'.
  apply write_object_ok in Hw as (o & Hd & -> & -> & -> & Ho).
  destruct r as [dir idx objs]; simpl in Hd; subst dir.
  destruct args as [d | | m t p].
  - subst o. cbn [write_object bind get put ret negb objects_is_dir objects index_file set_objects].
    now rewrite obj_write_twice.
  - destruct Ho as (es & Hr & ->).
    destruct idx as [| |es'|]; simpl in Hr; try discriminate; injection Hr as <-;
      cbn [write_object bind get put ret negb objects_is_dir objects index_file set_objects read_index];
      now rewrite obj_write_twice.
  - subst o. cbn [write_object bind get put ret negb objects_is_dir objects index_file set_objects].
    now rewrite obj_write_twice.
Qed.

(** ** Reading back an object file *)

Lemma firstn_tag : forall (tag rest : list byte), firstn (List.length tag) (tag ++ rest) = tag.
Proof. intros tag rest. now rewrite firstn_app, Nat.sub_diag, firstn_all, app_nil_r. Qed.

Lemma skipn_past : forall (l rest : list byte) b, skipn (S (List.length l)) (l ++ b :: rest) = rest.
Proof. intros l rest b. induction l as [|x l IH]; simpl; auto. Qed.

(** [read_object] on an object file whose bytes are [tag], a space, a
    decimal length, a NUL byte and [body]: the dispatch on [tag]. *)
Lemma read_object_header : forall H C D F r addr comp tag n body,
  objects_is_dir r = true -> List.length addr = 40%nat -> is_char_boundary addr 2 = true ->
  obj_lookup (firstn 2 addr, skipn 2 addr) (objects r) = Some comp ->
  D comp = Some (tag ++ x20 :: dec_N n ++ x00 :: body) ->
  ~ In x20 tag -> ~ In x00 tag ->
  read_object H C D F addr r =
   (if negb (utf8_valid tag) then fail Utf8Error
    else if bytes_eqb tag (bytes "blob") then
      (if utf8_valid body then ret (Blob (BlobObject_new H C body)) else fail Utf8Error)
    else if bytes_eqb tag (bytes "tree") then
      (index <- read_index ;; ret (Tree (TreeObject_new H C index)))
    else if bytes_eqb tag (bytes "commit") then
      ret (Commit (mkObject (H (tag ++ x20 :: dec_N n ++ x00 :: body)) comp body))
    else fail ObjectTypeNotImplemented) r.
Proof.
  intros H C D F r addr comp tag n body Hd Hl Hb Hlook HD Hsp Hnul.
  read_stored F addr r Hd Hl Hb Hlook. rewrite HD.
  rewrite (bind_ok _ _ _ _ _ (position_unwrap_ok x20 _ _ r (position_app_first _ _ _ Hsp))).
  assert (tag ++ x20 :: dec_N n ++ x00 :: body = (tag ++ x20 :: dec_N n) ++ x00 :: body) as Eb
    by (rewrite <- app_assoc; reflexivity).
  assert (~ In x00 (tag ++ x20 :: dec_N n)) as Hn0.
  { intros Hin. apply in_app_or in Hin as [Hin | [Hin | Hin]];
      [exact (Hnul Hin) | discriminate | exact (dec_N_no_nul n Hin)]. }
  rewrite (bind_ok _ _ _ _ _ (position_unwrap_ok x00 _ _ r
             (eq_trans (f_equal _ Eb) (position_app_first _ _ body Hn0)))).
  rewrite firstn_tag, Eb, skipn_past, <- Eb. reflexivity.
Qed.

Lemma stored_address_ok : forall H (x : list byte),
  (forall y, List.length (H y) = 20%nat) ->
  List.length (hex_encode (H x)) = 40%nat /\ is_char_boundary (hex_encode (H x)) 2 = true.
Proof.
  intros H x HH. rewrite hex_encode_length, HH. split; [reflexivity|].
  apply ascii_char_boundary; [apply hex_encode_ascii|]. rewrite hex_encode_length, HH. lia.
Qed.

Lemma blob_bytes : forall H C data,
  compressed_content (BlobObject_new H C data) =
    C (bytes "blob" ++ x20 :: dec_N (N.of_nat (List.length data)) ++ x00 :: data) /\
  hash (BlobObject_new H C data) =
    H (bytes "blob" ++ x20 :: dec_N (N.of_nat (List.length data)) ++ x00 :: data).
Proof. intros. unfold BlobObject_new, dec_nat. simpl. now rewrite <- app_assoc. Qed.

Lemma tree_bytes : forall H C es,
  exists n body,
  compressed_content (TreeObject_new H C es) = C (bytes "tree" ++ x20 :: dec_N n ++ x00 :: body) /\
  hash (TreeObject_new H C es) = H (bytes "tree" ++ x20 :: dec_N n ++ x00 :: body).
Proof.
  intros. unfold TreeObject_new, dec_nat. simpl. do 2 eexists. now rewrite <- app_assoc.
Qed.

Lemma commit_bytes : forall H C m t p ts off,
  let raw := raw_content (CommitObject_new H C m t p ts off) in
  compressed_content (CommitObject_new H C m t p ts off) =
    C (bytes "commit" ++ x20 :: dec_N (N.of_nat (List.length raw)) ++ x00 :: raw) /\
  hash (CommitObject_new H C m t p ts off) =
    H (bytes "commit" ++ x20 :: dec_N (N.of_nat (List.length raw)) ++ x00 :: raw).
Proof. intros. unfold CommitObject_new, dec_nat. simpl. auto. Qed.

Lemma blob_read_back : forall H C D F now data r h hex r',
  (forall x, D (C x) = Some x) -> (forall x, List.length (H x) = 20%nat) ->
  utf8_valid data = true ->
  write_object H C now (BlobArgs data) r = (Ok (h, hex), r') ->
  read_object H C D F hex r' = (Ok (Blob (BlobObject_new H C data)), r').
Proof.
  intros H C D F now data r h hex r' HDC HH Hu Hw.
  apply write_object_ok in Hw as (o & Hd & -> & -> & -> & ->).
  destruct (blob_bytes H C data) as [Hc Hh].
  set (full := bytes "blob" ++ x20 :: dec_N (N.of_nat (List.length data)) ++ x00 :: data) in *.
  rewrite Hc, Hh.
  destruct (stored_address_ok H full HH) as [Hl Hb].
  set (hx := hex_encode (H full)) in *.
  rewrite (read_object_header H C D F (set_objects (obj_write (firstn 2 hx, skipn 2 hx) (C full) (objects r)) r)
             hx (C full) (bytes "blob") (N.of_nat (List.length data)) data
             Hd Hl Hb (obj_lookup_write _ _ _ (hex_encode_key_ok _)) (HDC full)).
  - simpl. now rewrite Hu.
  - simpl. intuition discriminate.
  - simpl. intuition discriminate.
Qed.

(** X3: a blob written by [write_object] reads back through
    [read_object] at the returned address as the same blob (same digest,
    compressed bytes and content), for UTF-8 content, when decompression
    undoes compression and digests have 20 bytes. *)
Theorem write_object_read_blob : forall H C D F now data r h hex r',
  (forall x, D (C x) = Some x) -> (forall x, List.length (H x) = 20%nat) ->
  utf8_valid data = true ->
  write_object H C now (BlobArgs data) r = (Ok (h, hex), r') ->
  read_object H C D F hex r' = (Ok (Blob (BlobObject_new H C data)), r').
Proof. exact blob_read_back. Qed.

Ltac destruct_in Hc :=
  repeat match type of Hc with
  | context [if ?b then _ else _] => destruct b eqn:?; cbn -[write_object] in Hc; try discriminate
  | context [match ?x with Some _ => _ | None => _ end] => destruct x eqn:?; cbn -[write_object] in Hc; try discriminate
  end.

Lemma commit_tree_ok : forall H C F now m t p r x r',
  commit_tree H C F now m t p r = (Ok x, r') ->
  write_object H C now (CommitArgs m t p) r = (Ok x, r').
Proof.
  intros H C F now m t p r x r' Hc.
  unfold commit_tree, get_object_path, object_exists, bind, get, ret, fail, panic in Hc.
  destruct_in Hc; exact Hc.
Qed.

Lemma object_eta : forall o, o = mkObject (hash o) (compressed_content o) (raw_content o).
Proof. intros []; reflexivity. Qed.

Lemma commit_read_back : forall H C D F now m t p r h hex r',
  (forall x, D (C x) = Some x) -> (forall x, List.length (H x) = 20%nat) ->
  commit_tree H C F now m t p r = (Ok (h, hex), r') ->
  read_object H C D F hex r' = (Ok (Commit (CommitObject_new H C m t p (fst now) (snd now))), r').
Proof.
  intros H C D F now m t p r h hex r' HDC HH Hc.
  apply commit_tree_ok, write_object_ok in Hc as (o & Hd & -> & -> & -> & ->).
  set (obj := CommitObject_new H C m t p (fst now) (snd now)).
  destruct (commit_bytes H C m t p (fst now) (snd now)) as [Hc Hh]. fold obj in Hc, Hh.
  set (full := bytes "commit" ++ x20 :: dec_N (N.of_nat (List.length (raw_content obj))) ++ x00 :: raw_content obj) in *.
  rewrite Hc, Hh.
  destruct (stored_address_ok H full HH) as [Hl Hb].
  set (hx := hex_encode (H full)) in *.
  rewrite (read_object_header H C D F (set_objects (obj_write (firstn 2 hx, skipn 2 hx) (C full) (objects r)) r)
             hx (C full) (bytes "commit") (N.of_nat (List.length (raw_content obj))) (raw_content obj)
             Hd Hl Hb (obj_lookup_write _ _ _ (hex_encode_key_ok _)) (HDC full)).
  - assert (obj = mkObject (H full) (C full) (raw_content obj)) as Heta
      by (rewrite <- Hc, <- Hh; apply object_eta).
    fold full. rewrite <- Heta. reflexivity.
  - simpl. intuition discriminate.
  - simpl. intuition discriminate.
Qed.

(** X4: the commit written by [commit_tree] reads back through
    [read_object] at the returned address as the same commit object
    (digest, compressed bytes and raw content). *)
Theorem commit_tree_read_back : forall H C D F now m t p r h hex r',
  (forall x, D (C x) = Some x) -> (forall x, List.length (H x) = 20%nat) ->
  commit_tree H C F now m t p r = (Ok (h, hex), r') ->
  read_object H C D F hex r' = (Ok (Commit (CommitObject_new H C m t p (fst now) (snd now))), r').
Proof. exact commit_read_back. Qed.

Lemma write_tree_write_object : forall H C r,
  write_tree H C r = write_object H C (0%Z, 0%Z) TreeArgs r.
Proof.
  intros H C r. unfold write_tree. cbn [bind get].
  destruct (objects_is_dir r) eqn:Hd; [reflexivity|].
  symmetry. now apply write_object_notdir.
Qed.

Lemma read_index_set_objects : forall s r es,
  read_index r = (Ok es, r) -> read_index (set_objects s r) = (Ok es, set_objects s r).
Proof.
  intros s [dir idx objs] es Hr. unfold read_index, set_objects in *. cbn in *.
  destruct idx; unfold fail, ret in *; congruence.
Qed.

Lemma tree_read_back : forall H C D F r h hex r',
  (forall x, D (C x) = Some x) -> (forall x, List.length (H x) = 20%nat) ->
  write_tree H C r = (Ok (h, hex), r') ->
  exists es, read_index r = (Ok es, r) /\ h = hash (TreeObject_new H C es) /\
    read_object H C D F hex r' = (Ok (Tree (TreeObject_new H C es)), r').
Proof.
  intros H C D F r h hex r' HDC HH Hw.
  rewrite write_tree_write_object in Hw.
  apply write_object_ok in Hw as (o & Hd & -> & -> & -> & es & Hr & ->).
  exists es. split; [exact Hr | split; [reflexivity|]].
  destruct (tree_bytes H C es) as (n & body & Hc & Hh).
  set (full := bytes "tree" ++ x20 :: dec_N n ++ x00 :: body) in *.
  rewrite Hc, Hh.
  destruct (stored_address_ok H full HH) as [Hl Hb].
  set (hx := hex_encode (H full)) in *.
  set (r' := set_objects (obj_write (firstn 2 hx, skipn 2 hx) (C full) (objects r)) r).
  rewrite (read_object_header H C D F r' hx (C full) (bytes "tree") n body
             Hd Hl Hb (obj_lookup_write _ _ _ (hex_encode_key_ok _)) (HDC full)).
  - cbn [utf8_valid bytes_eqb negb bytes list_byte_of_string]. simpl.
    unfold r'. now rewrite (bind_ok _ _ _ _ _ (read_index_set_objects _ _ _ Hr)).
  - simpl. intuition discriminate.
  - simpl. intuition discriminate.
Qed.

(** X5: [write_tree] writes the tree of the current index: the index
    reads as some entries, the returned digest is the digest of their tree
    object, and [read_object] at the returned address gives that tree. *)
Theorem write_tree_read_back : forall H C D F r h hex r',
  (forall x, D (C x) = Some x) -> (forall x, List.length (H x) = 20%nat) ->
  write_tree H C r = (Ok (h, hex), r') ->
  exists es, read_index r = (Ok es, r) /\ h = hash (TreeObject_new H C es) /\
    read_object H C D F hex r' = (Ok (Tree (TreeObject_new H C es)), r').
Proof. exact tree_read_back. Qed.

(** ** The handler monad *)

Lemma cbind_ok : forall {A B} (m : CM A) (k : A -> CM B) s a s',
  m s = (COk a, s') -> cbind m k s = k a s'.
Proof. intros. unfold cbind. now rewrite H. Qed.

Lemma cbind_err : forall {A B} (m : CM A) (k : A -> CM B) s e s',
  m s = (CErr e, s') -> cbind m k s = (CErr e, s').
Proof. intros. unfold cbind. now rewrite H. Qed.

Lemma lift_ok : forall {A} (m : M A) s a r',
  m (repo s) = (Ok a, r') -> lift m s = (COk a, mkCli r' (stdout s)).
Proof. intros. unfold lift. now rewrite H. Qed.

Lemma lift_err : forall {A} (m : M A) s e r',
  m (repo s) = (Err e, r') -> lift m s = (CErr (RepoError e), mkCli r' (stdout s)).
Proof. intros. unfold lift. now rewrite H. Qed.

Lemma lift_inv : forall {A} (m : M A) s a s',
  lift m s = (COk a, s') -> m (repo s) = (Ok a, repo s') /\ stdout s' = stdout s.
Proof.
  intros A m s a s' Hl. unfold lift in Hl.
  destruct (m (repo s)) as [[b | e | ] r] eqn:E; try discriminate.
  injection Hl as <- <-. auto.
Qed.

(** ** Trimming *)

Lemma byte_eqb_false : forall a b, a <> b -> byte_eqb a b = false.
Proof.
  intros a b Hne. destruct (byte_eqb a b) eqn:E; auto.
  apply Byte.byte_dec_bl in E. contradiction.
Qed.

Lemma find_starts_with_none : forall seqs b s,
  (forall w, In w seqs -> exists c w', w = c :: w' /\ c <> b) ->
  find (fun w => starts_with w (b :: s)) seqs = None.
Proof.
  intros seqs b s Hs. induction seqs as [|w seqs IH]; simpl; auto.
  destruct (Hs w (or_introl eq_refl)) as (c & w' & -> & Hc).
  unfold starts_with. simpl. rewrite byte_eqb_false by congruence. simpl.
  apply IH. intros w0 Hw0. apply Hs. now right.
Qed.

Lemma strip_prefixes_stop : forall seqs f b s,
  (forall w, In w seqs -> exists c w', w = c :: w' /\ c <> b) ->
  strip_prefixes seqs f (b :: s) = b :: s.
Proof.
  intros seqs f b s Hs. destruct f as [|f]; simpl; auto.
  now rewrite find_starts_with_none.
Qed.

Lemma whitespace_heads : forall w, In w whitespace_seqs ->
  exists c w', w = c :: w' /\ is_ascii_hexdigit c = false.
Proof.
  intros w Hw.
  repeat (destruct Hw as [<-|Hw]; [do 2 eexists; split; reflexivity|]). destruct Hw.
Qed.

Lemma whitespace_tails : forall w, In w (map (@rev byte) whitespace_seqs) ->
  exists c w', w = c :: w' /\ is_ascii_hexdigit c = false.
Proof.
  intros w Hw. apply in_map_iff in Hw as (w0 & <- & Hw).
  repeat (destruct Hw as [<-|Hw]; [do 2 eexists; split; reflexivity|]). destruct Hw.
Qed.

Lemma heads_differ : forall seqs b,
  (forall w, In w seqs -> exists c w', w = c :: w' /\ is_ascii_hexdigit c = false) ->
  is_ascii_hexdigit b = true ->
  forall w, In w seqs -> exists c w', w = c :: w' /\ c <> b.
Proof.
  intros seqs b Hs Hb w Hw. destruct (Hs w Hw) as (c & w' & -> & Hc).
  exists c, w'. split; [reflexivity|]. intros ->. congruence.
Qed.

(** [str::trim] keeps a string that starts and ends with a hex digit. *)
Lemma trim_hex : forall s, s <> [] -> forallb is_ascii_hexdigit s = true -> trim s = s.
Proof.
  intros s Hne Hs. rewrite forallb_forall in Hs.
  unfold trim, trim_start.
  destruct s as [|b s']; [contradiction|].
  rewrite strip_prefixes_stop
    by (apply heads_differ; [apply whitespace_heads | apply Hs; now left]).
  unfold trim_end.
  destruct (rev (b :: s')) as [|c t] eqn:E.
  - exfalso. apply (f_equal (@List.length byte)) in E. rewrite length_rev in E. discriminate.
  - rewrite strip_prefixes_stop.
    + rewrite <- E. apply rev_involutive.
    + apply heads_differ; [apply whitespace_tails|]. apply Hs.
      apply in_rev. rewrite E. now left.
Qed.

(** ** Listing trees and the index *)

Lemma println_run : forall l s, println l s = (COk tt, mkCli (repo s) (stdout s ++ [l])).
Proof. reflexivity. Qed.

Lemma print_tree_entries_body : forall es f s,
  Forall listable es -> (List.length es <= f)%nat ->
  print_tree_entries f (flat_map tree_entry_bytes es) s =
    (COk tt, mkCli (repo s) (stdout s ++ map entry_line es)).
Proof.
  induction es as [|e es IH]; intros f s Hes Hf.
  - destruct f; simpl; destruct s; now rewrite app_nil_r.
  - inversion Hes as [|? ? (Hsha & Hnul & Hutf) Hes']; subst.
    destruct f as [|f]; [simpl in Hf; lia|].
    cbn [flat_map].
    assert (tree_entry_bytes e ++ flat_map tree_entry_bytes es =
            dec_N (mode e) ++ x20 :: path e ++ x00 :: sha1 e ++ flat_map tree_entry_bytes es) as Eb
      by (unfold tree_entry_bytes; now rewrite <- !app_assoc).
    rewrite Eb.
    destruct (dec_N (mode e) ++ x20 :: path e ++ x00 :: sha1 e ++ flat_map tree_entry_bytes es)
      as [|b0 raw0] eqn:E.
    { exfalso. eapply app_cons_not_nil. symmetry. exact E. }
    cbn [print_tree_entries]. rewrite <- E.
    rewrite (scan_until_app _ _ _ (dec_N_no_space (mode e))), dec_N_utf8. cbn [negb].
    rewrite (scan_until_app _ _ _ Hnul), Hutf. cbn [negb].
    replace (Nat.ltb (List.length (sha1 e ++ flat_map tree_entry_bytes es)) 20) with false
      by (symmetry; apply Nat.ltb_ge; rewrite length_app; lia).
    rewrite <- Hsha, firstn_tag.
    rewrite skipn_app, Nat.sub_diag, skipn_all. cbn [app skipn].
    unfold cbind. rewrite println_run.
    rewrite IH by (auto; simpl in Hf; lia).
    cbn [repo stdout map]. unfold entry_line. now rewrite <- app_assoc.
Qed.

Lemma print_index_entries_run : forall es s,
  print_index_entries es s = (COk tt, mkCli (repo s) (stdout s ++ map entry_line es)).
Proof.
  induction es as [|e es IH]; intros s; simpl.
  - destruct s. now rewrite app_nil_r.
  - unfold cbind. rewrite println_run, IH. cbn [repo stdout].
    unfold entry_line. now rewrite <- app_assoc.
Qed.

Lemma flat_map_tree_length : forall es,
  (List.length es <= List.length (flat_map tree_entry_bytes es))%nat.
Proof.
  induction es as [|e es IH]; [simpl; lia|].
  assert (1 <= List.length (tree_entry_bytes e))%nat
    by (unfold tree_entry_bytes; rewrite !length_app; simpl; lia).
  cbn [flat_map List.length]. rewrite length_app. lia.
Qed.

Lemma tree_raw_body : forall H C es,
  raw_content (TreeObject_new H C es) = flat_map tree_entry_bytes es.
Proof. intros. unfold TreeObject_new. simpl. now rewrite tree_entries_loop_app. Qed.

(** X7: after [write-tree] prints an address, [cat-file -p] on that
    address prints one line per index entry, the same lines as
    [ls-files --stage]. *)
Theorem write_tree_then_cat_file : forall H C D F s s' es,
  (forall x, D (C x) = Some x) -> (forall x, List.length (H x) = 20%nat) ->
  (index_file (repo s) = IndexEmpty /\ es = [] \/ index_file (repo s) = IndexEncoded es) ->
  Forall listable es ->
  handle_write_tree H C s = (COk tt, s') ->
  exists hex,
    stdout s' = stdout s ++ [hex] /\
    handle_cat_file_command H C D F (Some hex) [] false true s' =
      (COk tt, mkCli (repo s') (stdout s' ++ map entry_line es)) /\
    handle_ls_files_command true s' =
      (COk tt, mkCli (repo s') (stdout s' ++ map entry_line es)).
Proof.
  intros H C D F s s' es HDC HH Hes Hl Hw.
  unfold handle_write_tree, cbind in Hw.
  destruct (lift (write_tree H C) s) as [[[h hex] | e | ] s1] eqn:E; try discriminate.
  apply lift_inv in E as [Ew Eo].
  rewrite println_run in Hw. injection Hw as <-.
  destruct s1 as [r1 o1]. cbn [repo stdout snd] in *. subst o1.
  destruct (tree_read_back H C D F _ _ _ _ HDC HH Ew) as (es0 & Hr0 & Hh & Hro).
  rewrite (read_index_ok _ _ Hes) in Hr0. injection Hr0 as <-.
  pose proof Ew as Ew'. rewrite write_tree_write_object in Ew'.
  apply write_object_ok in Ew' as (o & _ & Hho & Hhex & Hr1 & _).
  assert (List.length hex = 40%nat) as Hlen.
  { rewrite Hhex, hex_encode_length, <- Hho, Hh. unfold TreeObject_new. simpl. now rewrite HH. }
  assert (forallb is_ascii_hexdigit hex = true) as Hx by (rewrite Hhex; apply hex_encode_hexdigits).
  assert (hex <> []) as Hne by (intros ->; discriminate).
  exists hex. split; [reflexivity|]. split.
  - unfold handle_cat_file_command, cbind at 1, cret at 1.
    rewrite (trim_hex hex Hne Hx), Hlen, Hx. cbn [Nat.eqb negb orb andb].
    rewrite (cbind_ok _ _ _ _ _ (lift_ok _ (mkCli r1 (stdout s ++ [hex])) _ _ Hro)).
    unfold cbind, cret. rewrite tree_raw_body.
    rewrite print_tree_entries_body by (auto using flat_map_tree_length). reflexivity.
  - unfold handle_ls_files_command.
    assert (read_index r1 = (Ok es, r1)) as Hr.
    { rewrite Hr1. destruct Hes as [[Hi ->] | Hi]; unfold read_index, set_objects;
        cbn [bind get index_file]; now rewrite Hi. }
    rewrite (cbind_ok _ _ _ _ _ (lift_ok _ (mkCli r1 (stdout s ++ [hex])) _ _ Hr)).
    apply print_index_entries_run.
Qed.

(** X6: after [hash-object -w <file>] prints an address, [cat-file -t]
    on it prints [blob] and [cat-file -p] on it prints the file's
    contents (two separate runs: the two flags conflict). *)
Theorem hash_object_then_cat_file : forall H C D F contents stdin s s',
  (forall x, D (C x) = Some x) -> (forall x, List.length (H x) = 20%nat) ->
  handle_hash_object_command H C (Some (Some contents)) stdin true s = (COk tt, s') ->
  exists hex,
    stdout s' = stdout s ++ [hex] /\
    handle_cat_file_command H C D F (Some hex) [] true false s' =
      (COk tt, mkCli (repo s') (stdout s' ++ [bytes "blob"])) /\
    handle_cat_file_command H C D F (Some hex) [] false true s' =
      (COk tt, mkCli (repo s') (stdout s' ++ [contents])).
Proof.
  intros H C D F contents stdin s s' HDC HH Hw.
  destruct (utf8_valid contents) eqn:Hu.
  2:{ unfold handle_hash_object_command, read_to_string, cbind, cfail in Hw.
      rewrite Hu in Hw. discriminate. }
  destruct (objects_is_dir (repo s)) eqn:Hd.
  2:{ unfold handle_hash_object_command, read_to_string, cbind, cret, lift in Hw.
      rewrite Hu, (write_object_notdir _ _ _ _ _ Hd) in Hw. discriminate. }
  destruct (write_object_blob H C (0%Z, 0%Z) contents (repo s) Hd) as (r1 & Ew & _ & _).
  unfold handle_hash_object_command, read_to_string, cbind, cret, lift in Hw.
  rewrite Hu, Ew in Hw. rewrite println_run in Hw. injection Hw as <-.
  set (hex := hex_encode (hash (BlobObject_new H C contents))) in *.
  pose proof (blob_read_back H C D F _ _ _ _ _ _ HDC HH Hu Ew) as Hro.
  assert (List.length hex = 40%nat) as Hlen.
  { unfold hex. rewrite hex_encode_length. unfold BlobObject_new. simpl. now rewrite HH. }
  assert (forallb is_ascii_hexdigit hex = true) as Hx by apply hex_encode_hexdigits.
  assert (hex <> []) as Hne by (intros E; rewrite E in Hlen; discriminate).
  exists hex. split; [reflexivity|].
  split; unfold handle_cat_file_command, cbind at 1, cret at 1;
    rewrite (trim_hex hex Hne Hx), Hlen, Hx; cbn [Nat.eqb negb orb andb];
    rewrite (cbind_ok _ _ _ _ _ (lift_ok _ (mkCli r1 (stdout s ++ [hex])) _ _ Hro));
    unfold cbind, cret; rewrite !println_run; reflexivity.
Qed.

(** ** What a successful [write_object] leaves in the store *)

Lemma write_object_stored : forall H C now args r h hex r',
  write_object H C now args r = (Ok (h, hex), r') ->
  hex = hex_encode h /\ index_file r' = index_file r /\ objects_is_dir r' = true /\
  obj_lookup (firstn 2 hex, skipn 2 hex) (objects r') <> None /\
  (forall k, k <> (firstn 2 hex, skipn 2 hex) -> obj_lookup k (objects r') = obj_lookup k (objects r)).
Proof.
  intros H C now args r h hex r' Hw.
  apply write_object_ok in Hw as (o & Hd & -> & -> & -> & _).
  destruct r as [dir idx objs]; simpl in *.
  split; [reflexivity | split; [reflexivity | split; [exact Hd | split]]].
  - rewrite obj_lookup_write; [discriminate | apply hex_encode_key_ok].
  - intros k Hk. rewrite obj_lookup_obj_write.
    destruct (key_eqb k _) eqn:E; auto. apply key_eqb_iff in E. contradiction.
Qed.

(** X1: a successful [write_object] returns the hex form of the digest it
    returns, leaves the [index] file as it was, stores an object file under
    the shard/leaf name of that hex form and changes no other object file. *)
Theorem write_object_store : forall H C now args r h hex r',
  write_object H C now args r = (Ok (h, hex), r') ->
  hex = hex_encode h /\ index_file r' = index_file r /\ objects_is_dir r' = true /\
  obj_lookup (firstn 2 hex, skipn 2 hex) (objects r') <> None /\
  (forall k, k <> (firstn 2 hex, skipn 2 hex) -> obj_lookup k (objects r') = obj_lookup k (objects r)).
Proof. exact write_object_stored. Qed.

(** ** Read-only computations *)

Lemma bind_pure : forall {A B} (m : M A) (k : A -> M B),
  pure m -> (forall a, pure (k a)) -> pure (bind m k).
Proof.
  intros A B m k Hm Hk r. unfold bind.
  specialize (Hm r). destruct (m r) as [[a|e|] r1]; simpl in Hm; subst; [apply Hk | reflexivity | reflexivity].
Qed.

Lemma ret_pure : forall {A} (a : A), pure (ret a).
Proof. intros A a r. reflexivity. Qed.
Lemma fail_pure : forall {A} e, pure (@fail A e).
Proof. intros A e r. reflexivity. Qed.
Lemma panic_pure : forall {A}, pure (@panic A).
Proof. intros A r. reflexivity. Qed.
Lemma get_pure : pure get.
Proof. intros r. reflexivity. Qed.

Ltac pure_tac :=
  repeat (cbv zeta;
    first [ apply bind_pure; [|intros]
          | apply ret_pure | apply fail_pure | apply panic_pure | apply get_pure
          | match goal with
            | |- pure (if ?b then _ else _) => destruct b
            | |- pure (match ?x with _ => _ end) => destruct x
            end ]).

Lemma read_index_pure : pure read_index.
Proof. unfold read_index. pure_tac. Qed.

Lemma get_object_path_pure : forall F s, pure (get_object_path F s).
Proof. intros F s. unfold get_object_path. pure_tac. Qed.

Lemma object_exists_pure : forall F k, pure (object_exists F k).
Proof. intros F k. unfold object_exists. pure_tac. Qed.

Lemma position_unwrap_pure : forall b buf, pure (position_unwrap b buf).
Proof. intros b buf. unfold position_unwrap. pure_tac. Qed.

Lemma read_object_pure : forall H C D F a, pure (read_object H C D F a).
Proof.
  intros H C D F a. unfold read_object.
  pure_tac; first [apply get_object_path_pure | apply position_unwrap_pure | apply read_index_pure].
Qed.

(** ** Relations every step of a computation keeps *)

Section Preserve.

Context (R : Repo -> Repo -> Prop) `{R_pre : PreOrder Repo R}.

Let R_refl : forall r, R r r := PreOrder_Reflexive.
Let R_trans : forall r1 r2 r3, R r1 r2 -> R r2 r3 -> R r1 r3 := PreOrder_Transitive.

Lemma pure_preserves : forall {A} (m : M A), pure m -> preserves R m.
Proof. intros A m Hm r. rewrite Hm. apply R_refl. Qed.

Lemma bind_preserves : forall {A B} (m : M A) (k : A -> M B),
  preserves R m -> (forall a, preserves R (k a)) -> preserves R (bind m k).
Proof.
  intros A B m k Hm Hk r. unfold bind.
  specialize (Hm r). destruct (m r) as [[a|e|] r1]; simpl in *; auto.
  eapply R_trans; [exact Hm | apply Hk].
Qed.

Lemma get_bind_preserves : forall {A} (k : Repo -> M A),
  (forall r, R r (snd (k r r))) -> preserves R (bind get k).
Proof. intros A k Hk r. apply Hk. Qed.

Lemma cbind_cpreserves : forall {A B} (m : CM A) (k : A -> CM B),
  cpreserves R m -> (forall a, cpreserves R (k a)) -> cpreserves R (cbind m k).
Proof.
  intros A B m k Hm Hk s. unfold cbind.
  specialize (Hm s). destruct (m s) as [[a|e|] s1]; simpl in *; auto.
  eapply R_trans; [exact Hm | apply Hk].
Qed.

Lemma cret_cpreserves : forall {A} (a : A), cpreserves R (cret a).
Proof. intros A a s. apply R_refl. Qed.
Lemma cfail_cpreserves : forall {A} e, cpreserves R (@cfail A e).
Proof. intros A e s. apply R_refl. Qed.
Lemma cpanic_cpreserves : forall {A}, cpreserves R (@cpanic A).
Proof. intros A s. apply R_refl. Qed.
Lemma println_cpreserves : forall l, cpreserves R (println l).
Proof. intros l s. apply R_refl. Qed.

Lemma lift_cpreserves : forall {A} (m : M A), preserves R m -> cpreserves R (lift m).
Proof.
  intros A m Hm s. unfold lift. specialize (Hm (repo s)).
  destruct (m (repo s)) as [[a|e|] r1]; exact Hm.
Qed.

Lemma read_to_string_cpreserves : forall bs, cpreserves R (read_to_string bs).
Proof. intros bs s. unfold read_to_string. destruct (utf8_valid bs); apply R_refl. Qed.

Lemma print_tree_entries_cpreserves : forall f raw, cpreserves R (print_tree_entries f raw).
Proof.
  intros f. induction f as [|f IH]; intros [|b raw]; cbn [print_tree_entries];
    [apply cret_cpreserves | apply cpanic_cpreserves | apply cret_cpreserves|].
  destruct (scan_until x20 (b :: raw)) as [[m rest1]|]; [|apply cpanic_cpreserves].
  destruct (negb (utf8_valid m)); [apply cfail_cpreserves|].
  destruct (scan_until x00 rest1) as [[p rest2]|]; [|apply cpanic_cpreserves].
  destruct (negb (utf8_valid p)); [apply cfail_cpreserves|].
  destruct (Nat.ltb (List.length rest2) 20); [apply cfail_cpreserves|].
  apply cbind_cpreserves; [apply println_cpreserves | intros; apply IH].
Qed.

Lemma print_index_entries_cpreserves : forall es, cpreserves R (print_index_entries es).
Proof.
  intros es. induction es as [|e es IH]; simpl; [apply cret_cpreserves|].
  apply cbind_cpreserves; [apply println_cpreserves | intros; apply IH].
Qed.

End Preserve.

#[local] Instance objects_kept_pre : PreOrder objects_kept.
Proof. split; [intros r k Hk; exact Hk | intros r1 r2 r3 H12 H23 k Hk; auto]. Qed.

#[local] Instance keeps_index_pre : PreOrder keeps_index.
Proof.
  split; [intros r; split; [intros k Hk; exact Hk | reflexivity]|].
  intros r1 r2 r3 [H12 I12] [H23 I23]. split; [intros k Hk; auto | congruence].
Qed.

Lemma obj_write_kept : forall k v s k',
  obj_lookup k' s <> None -> obj_lookup k' (obj_write k v s) <> None.
Proof.
  intros k v s k' Hk. rewrite obj_lookup_obj_write.
  destruct (obj_lookup k' s) as [w|] eqn:E; [|contradiction].
  rewrite (obj_lookup_key_ok _ _ _ E). destruct (key_eqb k' k); discriminate.
Qed.

Lemma preserves_weaken : forall (R R' : Repo -> Repo -> Prop) {A} (m : M A),
  (forall r r', R r r' -> R' r r') -> preserves R m -> preserves R' m.
Proof. intros R R' A m HR Hm r. apply HR, Hm. Qed.

Lemma cpreserves_weaken : forall (R R' : Repo -> Repo -> Prop) {A} (m : CM A),
  (forall r r', R r r' -> R' r r') -> cpreserves R m -> cpreserves R' m.
Proof. intros R R' A m HR Hm s. apply HR, Hm. Qed.

Lemma write_object_keeps : forall H C now args, preserves keeps_index (write_object H C now args).
Proof.
  intros H C now args [dir idx objs].
  destruct dir; [|split; [intros k Hk; exact Hk | reflexivity]].
  destruct args as [d| |m t p]; [| destruct idx |]; simpl;
    split; try reflexivity; intros k Hk; try exact Hk; apply obj_write_kept; exact Hk.
Qed.

Lemma write_object_kept : forall H C now args, preserves objects_kept (write_object H C now args).
Proof.
  intros H C now args. eapply preserves_weaken; [|apply write_object_keeps]. now intros r r' [].
Qed.

Lemma get_put_preserves : forall (R : Repo -> Repo -> Prop) (f : Repo -> Repo),
  (forall r, R r (f r)) -> preserves R (r' <- get ;; put (f r')).
Proof. intros R f Hf r. apply Hf. Qed.

Ltac pres_leaf :=
  first [ apply get_pure | apply ret_pure | apply fail_pure | apply panic_pure
        | apply read_index_pure | apply get_object_path_pure | apply object_exists_pure
        | apply position_unwrap_pure | apply read_object_pure ].

Ltac pres_tac :=
  repeat (cbv zeta;
    first [ match goal with |- PreOrder _ => typeclasses eauto end
          | apply write_object_keeps | apply write_object_kept
          | apply pure_preserves; first [typeclasses eauto | pres_leaf]
          | apply lift_cpreserves
          | match goal with |- preserves _ (bind get (fun r' => put (@?f r'))) =>
              apply (get_put_preserves _ f); intros end
          | apply bind_preserves; [..|intros]
          | apply cbind_cpreserves; [..|intros]
          | apply cret_cpreserves | apply cfail_cpreserves | apply cpanic_cpreserves
          | apply println_cpreserves | apply read_to_string_cpreserves
          | apply print_tree_entries_cpreserves | apply print_index_entries_cpreserves
          | match goal with
            | |- cpreserves _ (if ?b then _ else _) => destruct b
            | |- cpreserves _ (match ?x with _ => _ end) => destruct x
            | |- preserves _ (if ?b then _ else _) => destruct b
            | |- preserves _ (match ?x with _ => _ end) => destruct x
            end ]).

Lemma cat_file_cpreserves_eq : forall H C D F input stdin t p,
  cpreserves eq (handle_cat_file_command H C D F input stdin t p).
Proof.
  intros. unfold handle_cat_file_command. pres_tac.
Qed.

(** X12: [read_object], [read_index], [cat-file], [ls-files] and
    [hash-object] without [-w] never change the repository. *)
Theorem read_only_commands : forall H C F D,
  (forall addr r, snd (read_object H C D F addr r) = r) /\
  (forall r, snd (read_index r) = r) /\
  (forall input stdin t p s, repo (snd (handle_cat_file_command H C D F input stdin t p s)) = repo s) /\
  (forall stage s, repo (snd (handle_ls_files_command stage s)) = repo s) /\
  (forall file_path stdin s,
     repo (snd (handle_hash_object_command H C file_path stdin false s)) = repo s).
Proof.
  intros H C F D. split; [apply read_object_pure|]. split; [apply read_index_pure|].
  split; [|split].
  - intros input stdin t p s. symmetry. apply cat_file_cpreserves_eq.
  - intros stage s. symmetry. revert s. change (cpreserves eq (handle_ls_files_command stage)).
    unfold handle_ls_files_command. pres_tac.
  - intros file_path stdin s. symmetry. revert s.
    change (cpreserves eq (handle_hash_object_command H C file_path stdin false)).
    unfold handle_hash_object_command. pres_tac.
Qed.

Lemma add_to_index_kept : forall H C p file, preserves objects_kept (add_to_index H C p file).
Proof.
  intros. unfold add_to_index. pres_tac. intros k Hk. exact Hk.
Qed.


Lemma init_objects : forall F env s, objects (repo (snd (init F env s))) = objects (repo s).
Proof.
  intros F env [r o]. unfold init, cbind, lift, get, put, bind, ret, cret, cfail, set_index.
  cbn [repo]. destruct (objects_is_dir r || index_is_file (index_file r) || mini_git_exists env).
  2: destruct (mini_git_created env); [|reflexivity].
  all: rewrite println_run; cbn [repo].
  all: destruct (objects_is_dir r || objects_created env); [|reflexivity].
  all: destruct (refs_created env); [|reflexivity].
  all: destruct (head_ready env); [|reflexivity].
  all: destruct (index_is_file (index_file r) || index_exists env); [reflexivity|].
  all: destruct (index_created env); reflexivity.
Qed.

Lemma init_kept : forall F env, cpreserves objects_kept (init F env).
Proof. intros F env s k Hk. now rewrite init_objects. Qed.

Lemma main_kept : forall H C D F cmd, cpreserves objects_kept (main H C D F cmd).
Proof.
  intros H C D F [env | fp stdin w | input stdin t p | add file | stage | | now th par stdin]; unfold main.
  - apply init_kept.
  - unfold handle_hash_object_command. pres_tac.
  - eapply cpreserves_weaken; [|apply cat_file_cpreserves_eq]. intros r r' <- k Hk. exact Hk.
  - apply lift_cpreserves, add_to_index_kept.
  - unfold handle_ls_files_command. pres_tac.
  - unfold handle_write_tree, write_tree. pres_tac.
  - unfold handle_commit_tree, commit_tree. pres_tac.
Qed.

Lemma main_keeps_index : forall H C D F cmd,
  match cmd with
  | Init _ | UpdateIndex _ _ => True
  | _ => cpreserves keeps_index (main H C D F cmd)
  end.
Proof.
  intros H C D F [env | fp stdin w | input stdin t p | add file | stage | | now th par stdin]; unfold main;
    try exact I.
  - unfold handle_hash_object_command. pres_tac.
  - eapply cpreserves_weaken; [|apply cat_file_cpreserves_eq].
    intros r r' <-. split; [intros k Hk; exact Hk | reflexivity].
  - unfold handle_ls_files_command. pres_tac.
  - unfold handle_write_tree, write_tree. pres_tac.
  - unfold handle_commit_tree, commit_tree. pres_tac.
Qed.

(** X13: no command removes a stored object file, and only [init]
    and [update-index] change the [index] file. *)
Theorem commands_keep_objects : forall H C D F cmd s,
  objects_kept (repo s) (repo (snd (main H C D F cmd s))) /\
  match cmd with
  | Init _ | UpdateIndex _ _ => True
  | _ => index_file (repo (snd (main H C D F cmd s))) = index_file (repo s)
  end.
Proof.
  intros H C D F cmd s. split; [apply main_kept|].
  pose proof (main_keeps_index H C D F cmd) as Hk.
  destruct cmd; try exact I; apply (Hk s).
Qed.

(** ** Every staged digest names a stored object *)

#[local] Instance same_objects_pre : PreOrder same_objects.
Proof. split; [intros r; reflexivity | intros r1 r2 r3 E1 E2; unfold same_objects in *; congruence]. Qed.

Lemma add_to_index_store : forall H C p data r,
  fst (add_to_index H C p (Some data) r) = Ok tt ->
  objects_is_dir r = true /\
  objects (snd (add_to_index H C p (Some data) r)) =
    objects (snd (write_object H C (0%Z, 0%Z) (BlobArgs data) r)).
Proof.
  intros H C p data r Hok. unfold add_to_index in *. cbn [bind get] in *.
  destruct (index_is_file (index_file r)); cbn [negb] in *; [|discriminate].
  destruct (objects_is_dir r) eqn:Hd.
  2:{ rewrite (bind_err _ _ _ _ _ (write_object_notdir H C _ _ r Hd)) in Hok. discriminate. }
  split; [reflexivity|].
  destruct (write_object_blob H C (0%Z, 0%Z) data r Hd) as (r1 & Hw & _ & _).
  rewrite (bind_ok _ _ _ _ _ Hw). rewrite Hw. cbn [snd].
  match goal with |- objects (snd (?m r1)) = _ =>
    assert (Hp : preserves same_objects m) end.
  { pres_tac. unfold same_objects. reflexivity. }
  apply Hp.
Qed.

Lemma staged_members : forall p sha es es' e,
  staged p sha es es' -> In e es' -> In e es \/ e = mkIndexEntry 100644 sha p.
Proof.
  intros p sha es es' e Hs Hin.
  destruct Hs as [es pos x Hpos Hn Hb | es pos x Hpos Hn Hb | es Hpos].
  - destruct (replace_at_incl _ _ _ _ Hin); auto.
  - auto.
  - apply in_app_or in Hin as [Hin | [<- | []]]; auto.
Qed.

Lemma read_index_of_file : forall r r',
  index_file r' = index_file r -> fst (read_index r') = fst (read_index r).
Proof. intros [d i o] [d' i' o'] E. simpl in E. subst. destruct i; reflexivity. Qed.

(** X14: in a repository reached by staging, every index entry's
    digest names an object file of the store. *)
Theorem reachable_index_closed : forall H C r, reachable H C r -> index_closed r.
Proof.
  intros H C r Hr. induction Hr as [dir objs | r p file Hr IH].
  - intros es Hes e Hin. simpl in Hes. injection Hes as <-. destruct Hin.
  - pose proof (add_to_index_kept H C p file r) as Hkept.
    destruct (add_to_index_effect H C p file r)
      as [[Hi _] | (data & es & es' & -> & Hes & Hs & Hi & Hok)].
    + intros es Hread e Hin. apply Hkept.
      rewrite (read_index_of_file _ _ Hi) in Hread. exact (IH es Hread e Hin).
    + intros es2 Hread e Hin.
      unfold read_index in Hread. cbn [bind get] in Hread. rewrite Hi in Hread.
      injection Hread as <-.
      apply (Permutation_in _ (sort_perm es')) in Hin.
      destruct (staged_members _ _ _ _ _ Hs Hin) as [Hin' | ->].
      * apply Hkept. apply (IH es); [|exact Hin'].
        now rewrite (read_index_ok r es Hes).
      * destruct (add_to_index_store H C p data r Hok) as [Hd Hobj].
        rewrite Hobj. cbn [sha1].
        destruct (write_object_blob H C (0%Z, 0%Z) data r Hd) as (r1 & Hw & _ & _).
        rewrite Hw. cbn [snd].
        destruct (write_object_stored _ _ _ _ _ _ _ _ Hw) as (_ & _ & _ & Hstored & _).
        exact Hstored.
Qed.

(** ** What staging does to the index *)

Lemma replace_at_keep : forall {A} (l : list A) i x e0 e,
  nth_error l i = Some e0 -> In e l -> e <> e0 -> In e (replace_at i x l).
Proof.
  intros A l. induction l as [|y l IH]; intros [|i] x e0 e Hn Hin Hne; simpl in *; try discriminate.
  - injection Hn as ->. destruct Hin as [<-|Hin]; [contradiction | auto].
  - destruct Hin as [<-|Hin]; auto. right. eauto.
Qed.

Lemma staged_others : forall p sha es es' e,
  staged p sha es es' -> components (path e) <> components p -> (In e es' <-> In e es).
Proof.
  intros p sha es es' e Hs Hc.
  destruct Hs as [es pos x Hpos Hn Hb | es pos x Hpos Hn Hb | es Hpos].
  - destruct (position_some _ _ _ Hpos) as (x' & Hn' & Hx).
    rewrite Hn in Hn'. injection Hn' as <-. apply path_eqb_components in Hx.
    split; intros Hin.
    + destruct (replace_at_incl _ _ _ _ Hin) as [-> | Hin']; [simpl in Hc; contradiction | exact Hin'].
    + eapply replace_at_keep; eauto. intros ->. contradiction.
  - reflexivity.
  - split; intros Hin.
    + apply in_app_or in Hin as [Hin | [<- | []]]; [exact Hin | simpl in Hc; contradiction].
    + apply in_or_app. now left.
Qed.

(** X15: after a successful [add_to_index] of a path, the index has an
    entry for the path, every entry for the path (by components) has the
    blob's digest and mode 100644, and the entries of other paths are those
    of the index before. *)
Theorem stage_lookup : forall H C r r' p data es es',
  reachable H C r ->
  fst (read_index r) = Ok es ->
  add_to_index H C p (Some data) r = (Ok tt, r') ->
  fst (read_index r') = Ok es' ->
  (exists e, In e es' /\ components (path e) = components p) /\
  (forall e, In e es' -> components (path e) = components p ->
     sha1 e = hash (BlobObject_new H C data) /\ mode e = 100644) /\
  (forall e, components (path e) <> components p -> (In e es' <-> In e es)).
Proof.
  intros H C r r' p data es es' Hr Hes Hadd Hes'.
  destruct (add_to_index_effect H C p (Some data) r)
    as [[_ Hbad] | (data0 & es0 & es'' & Hdata & Hes0 & Hs & Hi & _)];
    rewrite Hadd in *; [contradiction|].
  injection Hdata as <-. cbn [snd] in Hi.
  rewrite (read_index_ok r es0 Hes0) in Hes. injection Hes as ->.
  unfold read_index in Hes'. cbn [bind get] in Hes'. rewrite Hi in Hes'. injection Hes' as <-.
  pose proof (reachable_stage_inv H C r es Hr Hes0) as Hinv.
  destruct (sort_staged_inv _ _ _ _ Hs Hinv) as ((_ & Hnd & Hm) & x & Hx & Hxp & Hxs).
  split; [exists x; auto | split].
  - intros e Hin Hep.
    assert (e = x) as -> by (eapply NoDup_map_inj_in; eauto; congruence).
    split; [exact Hxs|]. rewrite Forall_forall in Hm. auto.
  - intros e Hep. rewrite <- (staged_others _ _ _ _ _ Hs Hep).
    split; apply Permutation_in; [|symmetry]; apply sort_perm.
Qed.

(** ** Hex decoding *)

Lemma ascii_lower_map : forall s, ascii_lower s = map lower_byte s.
Proof. reflexivity. Qed.

Lemma hexdigit_lower : forall b, is_ascii_hexdigit (lower_byte b) = is_ascii_hexdigit b.
Proof. destruct b; reflexivity. Qed.

Lemma hex_val_lower : forall b, hex_val (lower_byte b) = hex_val b.
Proof. destruct b; reflexivity. Qed.

Lemma hex_val_digit : forall b x, hex_val b = Some x -> x < 16 /\ hex_digit x = lower_byte b.
Proof. destruct b; intros x E; try discriminate; injection E as <-; split; (reflexivity || lia). Qed.

Lemma hex_val_hex_digit : forall b,
  hex_val (hex_digit (Byte.to_N b / 16)) = Some (Byte.to_N b / 16) /\
  hex_val (hex_digit (Byte.to_N b mod 16)) = Some (Byte.to_N b mod 16).
Proof. destruct b; split; reflexivity. Qed.

Lemma byte_of_N_to_N : forall b, byte_of_N (Byte.to_N b) = b.
Proof. destruct b; reflexivity. Qed.

Lemma to_N_byte_of_N : forall n, n < 256 -> Byte.to_N (byte_of_N n) = n.
Proof.
  intros n Hn. unfold byte_of_N.
  destruct (Byte.of_N n) as [b|] eqn:E.
  - now apply Byte.to_of_N in E.
  - exfalso. apply Byte.of_N_None_iff in E. lia.
Qed.

Lemma hex_decode_pairs_encode : forall bs, hex_decode_pairs (hex_encode bs) = Some bs.
Proof.
  induction bs as [|b bs IH]; [reflexivity|].
  change (hex_encode (b :: bs)) with
    (hex_digit (Byte.to_N b / 16) :: hex_digit (Byte.to_N b mod 16) :: hex_encode bs).
  cbn [hex_decode_pairs]. destruct (hex_val_hex_digit b) as [-> ->]. rewrite IH.
  f_equal. f_equal.
  assert (Byte.to_N b / 16 * 16 + Byte.to_N b mod 16 = Byte.to_N b) as -> .
  { rewrite N.mul_comm. symmetry. apply N.div_mod. lia. }
  apply byte_of_N_to_N.
Qed.

Lemma hex_decode_pairs_ok : forall n s bs,
  (List.length s <= n)%nat -> hex_decode_pairs s = Some bs ->
  hex_encode bs = ascii_lower s /\ List.length s = (2 * List.length bs)%nat.
Proof.
  induction n as [|n IH]; intros s bs Hl Hd.
  - destruct s; [|simpl in Hl; lia]. injection Hd as <-. split; reflexivity.
  - destruct s as [|h [|l s]]; [injection Hd as <-; split; reflexivity | discriminate |].
    cbn [hex_decode_pairs] in Hd.
    destruct (hex_val h) as [x|] eqn:Eh; [|discriminate].
    destruct (hex_val l) as [y|] eqn:El; [|discriminate].
    destruct (hex_decode_pairs s) as [out|] eqn:Es; [|discriminate].
    injection Hd as <-.
    destruct (IH s out) as [IHe IHl]; [simpl in Hl; lia | exact Es |].
    destruct (hex_val_digit h x Eh) as [Hx Dx]. destruct (hex_val_digit l y El) as [Hy Dy].
    change (hex_encode (byte_of_N (x * 16 + y) :: out)) with
      (hex_digit (Byte.to_N (byte_of_N (x * 16 + y)) / 16) ::
       hex_digit (Byte.to_N (byte_of_N (x * 16 + y)) mod 16) :: hex_encode out).
    rewrite to_N_byte_of_N by lia.
    assert ((x * 16 + y) / 16 = x) as ->.
    { rewrite N.div_add_l by lia. rewrite N.div_small by lia. lia. }
    assert ((x * 16 + y) mod 16 = y) as ->.
    { rewrite N.add_comm, N.Div0.mod_add. apply N.mod_small. lia. }
    rewrite Dx, Dy, IHe. split; [reflexivity | simpl; lia].
Qed.

Lemma decode_to_slice_spec : forall bs s n out,
  decode_to_slice (hex_encode bs) (List.length bs) = Some bs /\
  (decode_to_slice s n = Some out -> hex_encode out = ascii_lower s /\ List.length out = n).
Proof.
  intros bs s n out. split.
  - unfold decode_to_slice. rewrite hex_encode_length, hex_decode_pairs_encode.
    rewrite <- Nat.negb_even, Nat.even_mul. cbn [Nat.even orb negb].
    rewrite Nat.mul_comm, Nat.div_mul by lia. now rewrite Nat.eqb_refl.
  - unfold decode_to_slice. intros Hd.
    destruct (Nat.odd (List.length s)); [discriminate|].
    destruct (Nat.eqb (List.length s / 2) n) eqn:En; cbn [negb] in Hd; [|discriminate].
    apply Nat.eqb_eq in En.
    destruct (hex_decode_pairs_ok (List.length s) s out (le_n _) Hd) as [He Hl].
    split; [exact He|]. rewrite Hl, Nat.mul_comm, Nat.div_mul in En by lia. exact En.
Qed.

(** X10: [decode_to_slice] undoes [hex::encode], and whatever it
    decodes re-encodes to the lower-case form of its input, with the
    requested length. *)
Theorem decode_to_slice_hex : forall bs s n out,
  decode_to_slice (hex_encode bs) (List.length bs) = Some bs /\
  (decode_to_slice s n = Some out -> hex_encode out = ascii_lower s /\ List.length out = n).
Proof. exact decode_to_slice_spec. Qed.

Lemma forallb_lower : forall s,
  forallb is_ascii_hexdigit (map lower_byte s) = forallb is_ascii_hexdigit s.
Proof. induction s as [|b s IH]; cbn [map forallb]; [reflexivity|]. now rewrite hexdigit_lower, IH. Qed.

Lemma hex_decode_pairs_lower : forall s, hex_decode_pairs (map lower_byte s) = hex_decode_pairs s.
Proof.
  assert (forall n s, (List.length s <= n)%nat ->
            hex_decode_pairs (map lower_byte s) = hex_decode_pairs s) as Hn.
  { induction n as [|n IH]; intros [|h [|l s]] Hl; cbn [map hex_decode_pairs]; auto;
      try (simpl in Hl; lia).
    rewrite !hex_val_lower, IH by (simpl in Hl; lia). reflexivity. }
  intros s. apply (Hn (List.length s)). lia.
Qed.

(** X9: [commit-tree] treats a parent digest with upper-case hex
    letters as its lower-case form: the whole command behaves the same. *)
Theorem commit_tree_parent_case : forall H C F now t s stdin,
  handle_commit_tree H C F now t (Some (ascii_lower s)) stdin =
  handle_commit_tree H C F now t (Some s) stdin.
Proof.
  intros. unfold handle_commit_tree, decode_to_slice.
  rewrite ascii_lower_map, length_map, forallb_lower, hex_decode_pairs_lower. reflexivity.
Qed.

(** X8: after [commit-tree -p <parent>] prints an address, the
    object stored there reads back as the commit of the trimmed message,
    the tree and a parent whose hex form is the lower-case argument. *)
Theorem commit_tree_cli_read_back : forall H C D F now t s stdin cli cli',
  (forall x, D (C x) = Some x) -> (forall x, List.length (H x) = 20%nat) ->
  handle_commit_tree H C F now t (Some s) stdin cli = (COk tt, cli') ->
  exists p hex,
    hex_encode p = ascii_lower s /\ stdout cli' = stdout cli ++ [hex] /\
    read_object H C D F hex (repo cli') =
      (Ok (Commit (CommitObject_new H C (trim_end_newlines stdin) t (Some p) (fst now) (snd now))),
       repo cli').
Proof.
  intros H C D F now t s stdin cli cli' HDC HH Hc.
  unfold handle_commit_tree, read_to_string in Hc.
  destruct (utf8_valid stdin) eqn:Hu; [|cbv [cbind cfail] in Hc; discriminate].
  rewrite (cbind_ok _ _ _ _ _ (eq_refl : cret stdin cli = (COk stdin, cli))) in Hc. cbv zeta in Hc.
  destruct (negb (Nat.eqb (List.length s) 40) || negb (forallb is_ascii_hexdigit s)).
  { rewrite (cbind_err _ _ _ _ _ (eq_refl : cfail InvalidParentHashFormat cli = (CErr InvalidParentHashFormat, cli))) in Hc.
    discriminate. }
  destruct (decode_to_slice s 20) as [p|] eqn:Ed.
  2:{ rewrite (cbind_err _ _ _ _ _ (eq_refl : cfail ParentDecodeError cli = (CErr ParentDecodeError, cli))) in Hc.
      discriminate. }
  rewrite (cbind_ok _ _ _ _ _ (eq_refl : cret (Some p) cli = (COk (Some p), cli))) in Hc.
  destruct (commit_tree H C F now (trim_end_newlines stdin) t (Some p) (repo cli))
    as [[[h hex]|e|] r'] eqn:Ec; [| unfold cbind, lift in Hc; rewrite Ec in Hc; discriminate..].
  rewrite (cbind_ok _ _ _ _ _ (lift_ok _ cli _ _ Ec)), println_run in Hc.
  injection Hc as <-.
  exists p, hex. split; [apply (proj2 (decode_to_slice_spec [] s 20 p) Ed)|].
  split; [reflexivity|].
  exact (commit_read_back H C D F now _ t (Some p) (repo cli) h hex r' HDC HH Ec).
Qed.

(** X11: in a repository, when [hash-object] without [-w] succeeds,
    [hash-object -w] on the same input succeeds too and prints the same line. *)
Theorem hash_object_write_same_line : forall H C file_path stdin s s1,
  objects_is_dir (repo s) = true ->
  handle_hash_object_command H C file_path stdin false s = (COk tt, s1) ->
  exists r2, handle_hash_object_command H C file_path stdin true s = (COk tt, mkCli r2 (stdout s1)).
Proof.
  intros H C file_path stdin s s1 Hd Hs1.
  unfold handle_hash_object_command in *.
  match type of Hs1 with cbind ?m0 _ s = _ => remember m0 as m eqn:Em end.
  assert (Hm : cpreserves eq m) by (subst m; pres_tac).
  specialize (Hm s).
  destruct (m s) as [[d|e|] s0] eqn:E; [| unfold cbind in Hs1; rewrite E in Hs1; discriminate..].
  rewrite (cbind_ok _ _ _ _ _ E) in Hs1. rewrite (cbind_ok _ _ _ _ _ E). cbn [snd] in Hm.
  rewrite (cbind_ok _ _ _ _ _ (eq_refl : cret (hex_encode (hash (BlobObject_new H C d))) s0 =
                                        (COk (hex_encode (hash (BlobObject_new H C d))), s0))) in Hs1.
  rewrite println_run in Hs1. injection Hs1 as <-.
  rewrite Hm in Hd.
  destruct (write_object_blob H C (0%Z, 0%Z) d (repo s0) Hd) as (r1 & Hw & _ & _).
  exists r1.
  rewrite (cbind_ok _ _ _ _ _ (cbind_ok _ _ _ _ _ (lift_ok _ s0 _ _ Hw))).
  reflexivity.
Qed.

(** ** Staging failures *)

(** X16: a failed [add_to_index] leaves the [index] file as it was and
    removes no object file. *)
Theorem stage_failure_keeps_index : forall H C p file r,
  fst (add_to_index H C p file r) <> Ok tt ->
  index_file (snd (add_to_index H C p file r)) = index_file r /\
  objects_kept r (snd (add_to_index H C p file r)).
Proof.
  intros H C p file r Hf. split; [|apply add_to_index_kept].
  destruct (add_to_index_effect H C p file r) as [[Hi _] | (_ & _ & _ & _ & _ & _ & _ & Hok)];
    [exact Hi | contradiction].
Qed.

(** X17: when the [index] file does not decode, [add_to_index] fails
    with a corrupt-index error after it has stored the file's blob. *)
Theorem stage_corrupt_index_stores_blob : forall H C p data r,
  objects_is_dir r = true -> index_file r = IndexUndecodable ->
  let hx := hex_encode (hash (BlobObject_new H C data)) in
  add_to_index H C p (Some data) r =
    (Err CorruptIndex,
     set_objects (obj_write (firstn 2 hx, skipn 2 hx) (compressed_content (BlobObject_new H C data))
                    (objects r)) r).
Proof.
  intros H C p data [d i o] Hd Hi hx. simpl in Hd, Hi. subst d i. reflexivity.
Qed.

(** ** [cat-file] on names it cannot use *)

Lemma read_object_missing : forall H C D F addr r,
  objects_is_dir r = true -> List.length addr = 40%nat -> forallb is_ascii_hexdigit addr = true ->
  obj_lookup (firstn 2 addr, skipn 2 addr) (objects r) = None ->
  read_object H C D F addr r = (Err ObjectDoesNotExist, r).
Proof.
  intros H C D F addr r Hd Hl Hx Hn. unfold read_object. cbn [bind get]. rewrite Hd. cbn [negb].
  rewrite (bind_ok _ _ _ _ _ (get_object_path_hex F addr r Hl Hx)).
  cbn [bind get path_entry]. now rewrite Hn.
Qed.

(** X19: [cat-file] on a well-formed address with no object file fails
    with "object does not exist", printing nothing and changing nothing. *)
Theorem cat_file_missing_object : forall H C D F input stdin t p s,
  objects_is_dir (repo s) = true -> t = true \/ p = true ->
  List.length (trim input) = 40%nat -> forallb is_ascii_hexdigit (trim input) = true ->
  obj_lookup (firstn 2 (trim input), skipn 2 (trim input)) (objects (repo s)) = None ->
  handle_cat_file_command H C D F (Some input) stdin t p s = (CErr (RepoError ObjectDoesNotExist), s).
Proof.
  intros H C D F input stdin t p s Hd Htp Hl Hx Hn.
  unfold handle_cat_file_command.
  rewrite (cbind_ok _ _ _ _ _ (eq_refl : cret (trim input) s = (COk (trim input), s))).
  rewrite Hl, Hx. cbn [Nat.eqb negb orb].
  destruct Htp as [-> | ->]; [| destruct t]; cbn [negb andb];
  rewrite (cbind_err _ _ _ _ _ (lift_err _ s _ _ (read_object_missing H C D F _ _ Hd Hl Hx Hn)));
  destruct s; reflexivity.
Qed.

(** X20: [cat-file] rejects a name that is not forty hex digits once
    trimmed, before reading anything: an empty name and any other bad name
    give their own errors, and nothing is printed or changed. *)
Theorem cat_file_rejects_bad_names : forall H C D F input stdin t p s,
  (List.length (trim input) <> 40%nat \/ forallb is_ascii_hexdigit (trim input) = false) ->
  handle_cat_file_command H C D F (Some input) stdin t p s =
    (CErr (if Nat.eqb (List.length (trim input)) 0 then EmptyObjectHash else NotAValidObjectName), s).
Proof.
  intros H C D F input stdin t p s Hbad.
  unfold handle_cat_file_command.
  rewrite (cbind_ok _ _ _ _ _ (eq_refl : cret (trim input) s = (COk (trim input), s))).
  destruct (Nat.eqb (List.length (trim input)) 0); [reflexivity|].
  destruct Hbad as [Hl | Hx].
  - apply Nat.eqb_neq in Hl. rewrite Hl. reflexivity.
  - rewrite Hx, orb_true_r. reflexivity.
Qed.

(** ** Examples of the further properties *)


Lemma sample_hash_length : forall x, List.length (sample_hash x) = 20%nat.
Proof. intros x. unfold sample_hash. rewrite length_firstn, length_app, repeat_length. lia. Qed.

Lemma sample_roundtrip : forall x, sample_decompress (sample_compress x) = Some x.
Proof. reflexivity. Qed.

Lemma write_object_store_witness :
  exists h hex r',
    write_object sample_hash sample_compress (0%Z, 0%Z) (BlobArgs (bytes "hi")) sample_repo =
      (Ok (h, hex), r') /\
    hex = hex_encode h /\ index_file r' = index_file sample_repo /\ objects_is_dir r' = true /\
    obj_lookup (firstn 2 hex, skipn 2 hex) (objects r') <> None /\
    (forall k, k <> (firstn 2 hex, skipn 2 hex) -> obj_lookup k (objects r') = obj_lookup k (objects sample_repo)).
Proof.
  destruct (write_object sample_hash sample_compress (0%Z, 0%Z) (BlobArgs (bytes "hi")) sample_repo)
    as [[[h hex]|e|] r'] eqn:Ew; try (vm_compute in Ew; discriminate).
  exists h, hex, r'. split; [reflexivity|]. exact (write_object_store _ _ _ _ _ _ _ _ Ew).
Defined.

Lemma write_object_twice_ok_witness :
  exists x r',
    write_object sample_hash sample_compress (0%Z, 0%Z) (BlobArgs (bytes "hi")) sample_repo = (Ok x, r') /\
    write_object sample_hash sample_compress (0%Z, 0%Z) (BlobArgs (bytes "hi")) r' = (Ok x, r').
Proof.
  destruct (write_object sample_hash sample_compress (0%Z, 0%Z) (BlobArgs (bytes "hi")) sample_repo)
    as [[x|e|] r'] eqn:Ew; try (vm_compute in Ew; discriminate).
  exists x, r'. split; [reflexivity|]. exact (write_object_twice_ok _ _ _ _ _ _ _ Ew).
Defined.

Lemma write_object_read_blob_witness :
  exists h hex r',
    write_object sample_hash sample_compress (0%Z, 0%Z) (BlobArgs (bytes "hi")) sample_repo =
      (Ok (h, hex), r') /\
    read_object sample_hash sample_compress sample_decompress sample_host hex r' =
      (Ok (Blob (BlobObject_new sample_hash sample_compress (bytes "hi"))), r').
Proof.
  destruct (write_object sample_hash sample_compress (0%Z, 0%Z) (BlobArgs (bytes "hi")) sample_repo)
    as [[[h hex]|e|] r'] eqn:Ew; try (vm_compute in Ew; discriminate).
  exists h, hex, r'. split; [reflexivity|].
  apply (write_object_read_blob sample_hash sample_compress sample_decompress sample_host (0%Z, 0%Z) (bytes "hi")
           sample_repo h hex r' sample_roundtrip sample_hash_length); [reflexivity | exact Ew].
Defined.

Lemma commit_tree_read_back_witness :
  exists h hex r',
    commit_tree sample_hash sample_compress sample_host (0%Z, 0%Z) (bytes "m") sample_tree_hex None sample_tree_repo =
      (Ok (h, hex), r') /\
    read_object sample_hash sample_compress sample_decompress sample_host hex r' =
      (Ok (Commit (CommitObject_new sample_hash sample_compress (bytes "m") sample_tree_hex None 0 0)), r').
Proof.
  destruct (commit_tree sample_hash sample_compress sample_host (0%Z, 0%Z) (bytes "m") sample_tree_hex None sample_tree_repo)
    as [[[h hex]|e|] r'] eqn:Ec; try (vm_compute in Ec; discriminate).
  exists h, hex, r'. split; [reflexivity|].
  exact (commit_tree_read_back _ _ _ sample_host _ _ _ _ _ _ _ _ sample_roundtrip sample_hash_length Ec).
Defined.

Lemma write_tree_read_back_witness :
  exists h hex r' es,
    write_tree sample_hash sample_compress sample_repo = (Ok (h, hex), r') /\
    read_index sample_repo = (Ok es, sample_repo) /\ h = hash (TreeObject_new sample_hash sample_compress es) /\
    read_object sample_hash sample_compress sample_decompress sample_host hex r' =
      (Ok (Tree (TreeObject_new sample_hash sample_compress es)), r').
Proof.
  destruct (write_tree sample_hash sample_compress sample_repo) as [[[h hex]|e|] r'] eqn:Ew;
    try (vm_compute in Ew; discriminate).
  destruct (write_tree_read_back _ _ _ sample_host _ _ _ _ sample_roundtrip sample_hash_length Ew) as (es & Hes).
  exists h, hex, r', es. split; [reflexivity | exact Hes].
Defined.

Lemma hash_object_then_cat_file_witness :
  exists s' hex,
    handle_hash_object_command sample_hash sample_compress (Some (Some (bytes "hi"))) [] true
      (mkCli sample_repo []) = (COk tt, s') /\
    stdout s' = [hex] /\
    handle_cat_file_command sample_hash sample_compress sample_decompress sample_host (Some hex) [] true false s' =
      (COk tt, mkCli (repo s') (stdout s' ++ [bytes "blob"])) /\
    handle_cat_file_command sample_hash sample_compress sample_decompress sample_host (Some hex) [] false true s' =
      (COk tt, mkCli (repo s') (stdout s' ++ [bytes "hi"])).
Proof.
  destruct (handle_hash_object_command sample_hash sample_compress (Some (Some (bytes "hi"))) [] true
              (mkCli sample_repo [])) as [[[]|e|] s'] eqn:Eh; try (vm_compute in Eh; discriminate).
  destruct (hash_object_then_cat_file _ _ _ sample_host _ _ _ _ sample_roundtrip sample_hash_length Eh) as (hex & Hs).
  exists s', hex. split; [reflexivity | exact Hs].
Defined.

Lemma write_tree_then_cat_file_witness :
  exists s' hex,
    handle_write_tree sample_hash sample_compress (mkCli sample_staged_repo []) = (COk tt, s') /\
    stdout s' = [hex] /\
    handle_cat_file_command sample_hash sample_compress sample_decompress sample_host (Some hex) [] false true s' =
      (COk tt, mkCli (repo s') (stdout s' ++ map entry_line sample_staged_entries)) /\
    handle_ls_files_command true s' =
      (COk tt, mkCli (repo s') (stdout s' ++ map entry_line sample_staged_entries)).
Proof.
  destruct (handle_write_tree sample_hash sample_compress (mkCli sample_staged_repo []))
    as [[[]|e|] s'] eqn:Eh; try (vm_compute in Eh; discriminate).
  assert (index_file (repo (mkCli sample_staged_repo [])) = IndexEmpty /\ sample_staged_entries = [] \/
          index_file (repo (mkCli sample_staged_repo [])) = IndexEncoded sample_staged_entries) as Hes
    by (right; vm_compute; reflexivity).
  assert (Forall listable sample_staged_entries) as Hl.
  { constructor; [|constructor]. split; [reflexivity | split; [simpl; intuition discriminate | reflexivity]]. }
  destruct (write_tree_then_cat_file _ _ _ sample_host _ _ _ sample_roundtrip sample_hash_length Hes Hl Eh) as (hex & Hs).
  exists s', hex. split; [reflexivity | exact Hs].
Defined.

Lemma commit_tree_cli_read_back_witness :
  exists cli' p hex,
    handle_commit_tree sample_hash sample_compress sample_host (0%Z, 0%Z) sample_tree_hex (Some sample_tree_hex)
      (bytes "msg") (mkCli sample_tree_repo []) = (COk tt, cli') /\
    hex_encode p = ascii_lower sample_tree_hex /\ stdout cli' = [hex] /\
    read_object sample_hash sample_compress sample_decompress sample_host hex (repo cli') =
      (Ok (Commit (CommitObject_new sample_hash sample_compress (trim_end_newlines (bytes "msg"))
                     sample_tree_hex (Some p) 0 0)), repo cli').
Proof.
  destruct (handle_commit_tree sample_hash sample_compress sample_host (0%Z, 0%Z) sample_tree_hex (Some sample_tree_hex)
              (bytes "msg") (mkCli sample_tree_repo [])) as [[[]|e|] cli'] eqn:Eh;
    try (vm_compute in Eh; discriminate).
  destruct (commit_tree_cli_read_back _ _ _ sample_host _ _ _ _ _ _ sample_roundtrip sample_hash_length Eh)
    as (p & hex & Hs).
  exists cli', p, hex. split; [reflexivity | exact Hs].
Defined.

Lemma hash_object_write_same_line_witness :
  exists s1 r2,
    handle_hash_object_command sample_hash sample_compress (Some (Some (bytes "hi"))) [] false
      (mkCli sample_repo []) = (COk tt, s1) /\
    handle_hash_object_command sample_hash sample_compress (Some (Some (bytes "hi"))) [] true
      (mkCli sample_repo []) = (COk tt, mkCli r2 (stdout s1)).
Proof.
  destruct (handle_hash_object_command sample_hash sample_compress (Some (Some (bytes "hi"))) [] false
              (mkCli sample_repo [])) as [[[]|e|] s1] eqn:Eh; try (vm_compute in Eh; discriminate).
  destruct (hash_object_write_same_line sample_hash sample_compress (Some (Some (bytes "hi"))) []
              (mkCli sample_repo []) s1 eq_refl Eh) as (r2 & Hw).
  exists s1, r2. split; [reflexivity | exact Hw].
Defined.

Lemma reachable_index_closed_witness :
  reachable sample_hash sample_compress sample_staged_repo /\ index_closed sample_staged_repo.
Proof.
  assert (reachable sample_hash sample_compress sample_staged_repo) as Hr
    by (apply reach_stage, (reach_init _ _ true [])).
  split; [exact Hr | exact (reachable_index_closed _ _ _ Hr)].
Defined.

Lemma stage_lookup_witness :
  exists r' es',
    add_to_index sample_hash sample_compress (bytes "b.txt") (Some (bytes "2")) sample_staged_repo = (Ok tt, r') /\
    fst (read_index r') = Ok es' /\
    (exists e, In e es' /\ components (path e) = components (bytes "b.txt")) /\
    (forall e, In e es' -> components (path e) = components (bytes "b.txt") ->
       sha1 e = hash (BlobObject_new sample_hash sample_compress (bytes "2")) /\ mode e = 100644) /\
    (forall e, components (path e) <> components (bytes "b.txt") ->
       (In e es' <-> In e sample_staged_entries)).
Proof.
  assert (reachable sample_hash sample_compress sample_staged_repo) as Hr
    by (apply reach_stage, (reach_init _ _ true [])).
  assert (fst (read_index sample_staged_repo) = Ok sample_staged_entries) as Hes by (vm_compute; reflexivity).
  destruct (add_to_index sample_hash sample_compress (bytes "b.txt") (Some (bytes "2")) sample_staged_repo)
    as [[[]|e|] r'] eqn:Ea; try (vm_compute in Ea; discriminate).
  assert (snd (add_to_index sample_hash sample_compress (bytes "b.txt") (Some (bytes "2")) sample_staged_repo) = r')
    as Er' by (rewrite Ea; reflexivity).
  destruct (fst (read_index r')) as [es'|e|] eqn:Er.
  2, 3: exfalso; rewrite <- Er' in Er; vm_compute in Er; discriminate.
  exists r', es'. split; [reflexivity|]. split; [exact Er|].
  exact (stage_lookup _ _ _ _ _ _ _ _ Hr Hes Ea Er).
Defined.

Lemma stage_failure_keeps_index_witness :
  fst (add_to_index sample_hash sample_compress (bytes "a.txt") None sample_repo) <> Ok tt /\
  index_file (snd (add_to_index sample_hash sample_compress (bytes "a.txt") None sample_repo)) =
    index_file sample_repo /\
  objects_kept sample_repo (snd (add_to_index sample_hash sample_compress (bytes "a.txt") None sample_repo)).
Proof.
  assert (fst (add_to_index sample_hash sample_compress (bytes "a.txt") None sample_repo) <> Ok tt) as Hf
    by (vm_compute; discriminate).
  split; [exact Hf | exact (stage_failure_keeps_index _ _ _ _ _ Hf)].
Defined.

Lemma stage_corrupt_index_stores_blob_witness :
  objects_is_dir sample_corrupt_repo = true /\ index_file sample_corrupt_repo = IndexUndecodable /\
  let hx := hex_encode (hash (BlobObject_new sample_hash sample_compress (bytes "1"))) in
  add_to_index sample_hash sample_compress (bytes "a.txt") (Some (bytes "1")) sample_corrupt_repo =
    (Err CorruptIndex,
     set_objects (obj_write (firstn 2 hx, skipn 2 hx)
                    (compressed_content (BlobObject_new sample_hash sample_compress (bytes "1")))
                    (objects sample_corrupt_repo)) sample_corrupt_repo).
Proof.
  assert (objects_is_dir sample_corrupt_repo = true) as H1 by reflexivity.
  assert (index_file sample_corrupt_repo = IndexUndecodable) as H2 by reflexivity.
  split; [exact H1 | split; [exact H2 |]].
  exact (stage_corrupt_index_stores_blob _ _ _ _ _ H1 H2).
Defined.

Lemma cat_file_missing_object_witness :
  let input := repeat x61 40 in
  objects_is_dir (repo (mkCli sample_repo [])) = true /\
  List.length (trim input) = 40%nat /\ forallb is_ascii_hexdigit (trim input) = true /\
  obj_lookup (firstn 2 (trim input), skipn 2 (trim input)) (objects (repo (mkCli sample_repo []))) = None /\
  handle_cat_file_command sample_hash sample_compress sample_decompress sample_host (Some input) [] true false
    (mkCli sample_repo []) = (CErr (RepoError ObjectDoesNotExist), mkCli sample_repo []).
Proof.
  intros input.
  assert (objects_is_dir (repo (mkCli sample_repo [])) = true) as H1 by reflexivity.
  assert (List.length (trim input) = 40%nat) as H2 by (vm_compute; reflexivity).
  assert (forallb is_ascii_hexdigit (trim input) = true) as H3 by (vm_compute; reflexivity).
  assert (obj_lookup (firstn 2 (trim input), skipn 2 (trim input)) (objects (repo (mkCli sample_repo []))) = None)
    as H4 by (vm_compute; reflexivity).
  split; [exact H1 | split; [exact H2 | split; [exact H3 | split; [exact H4 |]]]].
  exact (cat_file_missing_object _ _ _ sample_host _ _ true false _ H1 (or_introl eq_refl) H2 H3 H4).
Defined.

Lemma cat_file_rejects_bad_names_witness :
  (List.length (trim (bytes " xyz ")) <> 40%nat \/ forallb is_ascii_hexdigit (trim (bytes " xyz ")) = false) /\
  handle_cat_file_command sample_hash sample_compress sample_decompress sample_host (Some (bytes " xyz ")) [] true false
    (mkCli sample_repo []) = (CErr NotAValidObjectName, mkCli sample_repo []).
Proof.
  assert (List.length (trim (bytes " xyz ")) <> 40%nat \/ forallb is_ascii_hexdigit (trim (bytes " xyz ")) = false)
    as H1 by (left; vm_compute; discriminate).
  split; [exact H1|].
  rewrite (cat_file_rejects_bad_names _ _ _ sample_host _ _ _ _ _ H1). vm_compute. reflexivity.
Defined.
